(** * SmartCharts web components: overlay arbitration, keystroke claims, undo

    A shallow embedding of the parts of [src/components/components.js] that
    carry state-machine behaviour: the [cq-scroll], [cq-dialog], [cq-menu],
    [cq-lookup] and [cq-undo] components.

    The browser document is a list of elements in document order; an
    element is named by its index, and its parent always has a smaller
    index.  Component instances are their DOM element, so the JavaScript
    properties the components store on [this] ([active], [noClose],
    [params], ...) are fields of the element record.  Numbers that take
    part in arithmetic on pixels are IEEE 754 doubles, as in JavaScript. *)

From Stdlib Require Import ZArith Lia Ascii String.
From Stdlib Require Import Floats.SpecFloat.
From stdpp Require Import base option list strings gmap.

Local Open Scope string_scope.
Local Open Scope list_scope.
Local Open Scope nat_scope.

(** ** Numbers *)

(** A JavaScript number is a binary64 floating-point number: 53 bits of
    precision, exponents below 1024, results rounded to the nearest
    value with ties to even.  The operations are those of the
    specification of IEEE 754 arithmetic in the standard library. *)
Definition float : Type := spec_float.

Definition prec : Z := 53.
Definition emax : Z := 1024.

Global Instance float_eq_dec : EqDecision float.
Proof. solve_decision. Defined.

Definition zero : float := S754_zero false.
Definition nan : float := S754_nan.

(** [a + b], [a - b], [a * b], [a / b] and [a < b]; [a > b] is
    [fltb b a]. *)
Definition fadd : float → float → float := SFadd prec emax.
Definition fsub : float → float → float := SFsub prec emax.
Definition fmul : float → float → float := SFmul prec emax.
Definition fdiv : float → float → float := SFdiv prec emax.
Definition fltb : float → float → bool := SFltb.

(** The number an integer literal denotes. *)
Definition ofZ (z : Z) : float := binary_normalize prec emax z 0 false.

(** [ToNumber] of a value that may be [undefined]. *)
Definition toNumber (v : option float) : float := default nan v.

(** ** The document *)

(** The [params] object handed to [Dialog.prototype.show]; a missing
    property is [None]. *)
Record Params := mkParams {
  params_x : option float;
  params_y : option float;
  bypassOverlay : bool;
}.

(** [tagName] holds the tag the way selectors spell it (lower case).
    [attributes] and [classList] list the names currently set.  The flags
    [trulyvisible] and [invalid] record whether the element matches the
    [:trulyvisible] and [:invalid] selectors; [selectFC] whether a
    [cq-item] carries a [selectFC] callback.  The remaining fields are the
    properties the components keep on the element, its inline position and
    its measured geometry.  [queuedUpdates] lists the names held by the
    [queuedUpdates] object of a [cq-study-dialog]; [colorPicker] is the
    property [Swatch.prototype.launchColorPicker] sets on a [cq-swatch],
    [None] while it is unset. *)
Record Element := mkElement {
  tagName : string;
  parentNode : option nat;
  attributes : list string;
  classList : list string;
  trulyvisible : bool;
  invalid : bool;
  selectFC : bool;
  active : bool;
  noClose : nat;
  params : option Params;
  activeAttributes : list string;
  cssLeft : option float;
  cssTop : option float;
  value : string;
  outerWidth : float;
  outerHeight : float;
  guaranteedWidth : float;
  guaranteedHeight : float;
  offsetTop : Z;
  clientHeight : Z;
  scrollTop : Z;
  queuedUpdates : list string;
  colorPicker : option nat;
}.

Definition set_attributes (v : list string) (e : Element) : Element :=
  let '(mkElement t p _ c tv iv sf a n pa aa l tp vl ow oh gw gh ot ch st qu cp) := e in
  mkElement t p v c tv iv sf a n pa aa l tp vl ow oh gw gh ot ch st qu cp.

Definition set_classList (v : list string) (e : Element) : Element :=
  let '(mkElement t p at' _ tv iv sf a n pa aa l tp vl ow oh gw gh ot ch st qu cp) := e in
  mkElement t p at' v tv iv sf a n pa aa l tp vl ow oh gw gh ot ch st qu cp.

Definition set_active (v : bool) (e : Element) : Element :=
  let '(mkElement t p at' c tv iv sf _ n pa aa l tp vl ow oh gw gh ot ch st qu cp) := e in
  mkElement t p at' c tv iv sf v n pa aa l tp vl ow oh gw gh ot ch st qu cp.

Definition set_noClose (v : nat) (e : Element) : Element :=
  let '(mkElement t p at' c tv iv sf a _ pa aa l tp vl ow oh gw gh ot ch st qu cp) := e in
  mkElement t p at' c tv iv sf a v pa aa l tp vl ow oh gw gh ot ch st qu cp.

Definition set_params (v : option Params) (e : Element) : Element :=
  let '(mkElement t p at' c tv iv sf a n _ aa l tp vl ow oh gw gh ot ch st qu cp) := e in
  mkElement t p at' c tv iv sf a n v aa l tp vl ow oh gw gh ot ch st qu cp.

Definition set_activeAttributes (v : list string) (e : Element) : Element :=
  let '(mkElement t p at' c tv iv sf a n pa _ l tp vl ow oh gw gh ot ch st qu cp) := e in
  mkElement t p at' c tv iv sf a n pa v l tp vl ow oh gw gh ot ch st qu cp.

Definition set_cssLeft (v : option float) (e : Element) : Element :=
  let '(mkElement t p at' c tv iv sf a n pa aa _ tp vl ow oh gw gh ot ch st qu cp) := e in
  mkElement t p at' c tv iv sf a n pa aa v tp vl ow oh gw gh ot ch st qu cp.

Definition set_cssTop (v : option float) (e : Element) : Element :=
  let '(mkElement t p at' c tv iv sf a n pa aa l _ vl ow oh gw gh ot ch st qu cp) := e in
  mkElement t p at' c tv iv sf a n pa aa l v vl ow oh gw gh ot ch st qu cp.

Definition set_value (v : string) (e : Element) : Element :=
  let '(mkElement t p at' c tv iv sf a n pa aa l tp _ ow oh gw gh ot ch st qu cp) := e in
  mkElement t p at' c tv iv sf a n pa aa l tp v ow oh gw gh ot ch st qu cp.

Definition set_scrollTop (v : Z) (e : Element) : Element :=
  let '(mkElement t p at' c tv iv sf a n pa aa l tp vl ow oh gw gh ot ch _ qu cp) := e in
  mkElement t p at' c tv iv sf a n pa aa l tp vl ow oh gw gh ot ch v qu cp.

Definition set_queuedUpdates (v : list string) (e : Element) : Element :=
  let '(mkElement t p at' c tv iv sf a n pa aa l tp vl ow oh gw gh ot ch st _ cp) := e in
  mkElement t p at' c tv iv sf a n pa aa l tp vl ow oh gw gh ot ch st v cp.

Definition set_colorPicker (v : option nat) (e : Element) : Element :=
  let '(mkElement t p at' c tv iv sf a n pa aa l tp vl ow oh gw gh ot ch st qu _) := e in
  mkElement t p at' c tv iv sf a n pa aa l tp vl ow oh gw gh ot ch st qu v.

(** A plain element of the given tag under the given parent. *)
Definition plain (tag : string) (parent : option nat) : Element :=
  mkElement tag parent [] [] true false false false 0 None [] None None EmptyString
            zero zero zero zero 0%Z 0%Z 0%Z [] None.

(** Name lists behave as sets: adding a present name changes nothing. *)
Definition add_name (n : string) (l : list string) : list string :=
  if decide (n ∈ l) then l else l ++ [n].

Definition remove_name (n : string) (l : list string) : list string :=
  filter (λ m, m ≠ n) l.

(** *** jQuery traversals *)

Section Traversal.
Variable d : list Element.

Definition tagOf (i : nat) : string :=
  from_option tagName EmptyString (d !! i).

Definition hasAttrb (n : string) (i : nat) : bool :=
  from_option (λ e, bool_decide (n ∈ attributes e)) false (d !! i).

Definition hasClassb (n : string) (i : nat) : bool :=
  from_option (λ e, bool_decide (n ∈ classList e)) false (d !! i).

Definition isActive (i : nat) : bool :=
  from_option active false (d !! i).

(** [$(i).parents()]: the ancestors of [i], closest first.  Each step
    moves to a smaller index, so [i] steps are always enough. *)
Fixpoint parents_from (fuel i : nat) : list nat :=
  match fuel with
  | 0 => []
  | S fuel' =>
      match d !! i ≫= parentNode with
      | Some p => if decide (p < i) then p :: parents_from fuel' p else []
      | None => []
      end
  end.

Definition parents (i : nat) : list nat := parents_from i i.

(** [$(i).parents().addBack()], in document order. *)
Definition domChain (i : nat) : list nat := reverse (parents i) ++ [i].

(** [$(i).parents(sel)] for a selector given as a list of tag names. *)
Definition parentsOf (tags : list string) (i : nat) : list nat :=
  filter (λ j, tagOf j ∈ tags) (parents i).

(** [$(i).children()] *)
Definition children (i : nat) : list nat :=
  filter (λ j, d !! j ≫= parentNode = Some i ∧ i < j) (seq 0 (length d)).

(** All strict descendants of [i], in document order. *)
Definition descendants (i : nat) : list nat :=
  filter (λ j, i ∈ parents j) (seq 0 (length d)).

(** [$(i).find(tag)] *)
Definition find (tag : string) (i : nat) : list nat :=
  filter (λ j, tagOf j = tag) (descendants i).

(** [$(i).find(':invalid')] *)
Definition findInvalid (i : nat) : list nat :=
  filter (λ j, from_option invalid false (d !! j) = true) (descendants i).

(** [$(i).closest('cq-dialog,cq-menu')] *)
Definition closest (tags : list string) (i : nat) : option nat :=
  head (filter (λ j, tagOf j ∈ tags) (i :: parents i)).

(** [$(tag)]: every element of that tag in the document. *)
Definition select (tag : string) : list nat :=
  filter (λ j, tagOf j = tag) (seq 0 (length d)).
End Traversal.

(** ** The page state *)

(** A callback queued with [setTimeout]: the deferred half of
    [Dialog.prototype.show], closed over the dialog and its [params]. *)
Inductive Timer :=
  | DialogShowTimer (self : nat) (p : Params).

(** Calls that leave the modelled components (lookup driver, selection
    callbacks, chart engine, study helper). *)
Inductive Effect :=
  | AcceptText (lookup : nat) (text : string)
  | SelectItem (lookup : nat) (symbol : string)
  | SelectFC (item : nat)
  | StxUndo (chart : nat)
  | ChangeOccurred (chart : nat)
  | Draw (chart : nat)
  | UpdateStudy (dialog : nat) (updates : list string).

(** The chart engine object [context.stx], as far as the components read
    and write it.  Drawings are opaque references. *)
Record Stx := mkStx {
  drawingObjects : list nat;
  activeDrawing : bool;
  anyHighlighted : bool;
}.

Global Instance Stx_inhabited : Inhabited Stx := populate (mkStx [] false false).

(** One entry of the undo or redo stack: [{context, drawings}]. *)
Record UndoEntry := mkUndoEntry {
  entry_context : nat;
  entry_drawings : list nat;
}.

(** The properties of a [cq-undo] element.  The stacks are JavaScript
    arrays: [push] appends and [pop] removes the last element. *)
Record UndoData := mkUndoData {
  undostack : list UndoEntry;
  redostack : list UndoEntry;
  contexts : list nat;
  redoButton : option nat;
}.

Global Instance UndoData_inhabited : Inhabited UndoData :=
  populate (mkUndoData [] [] [] None).

(** The properties of a [cq-lookup] element: [this.input[0]], the chart
    of [this.context], [this.params.cb] and [this.params.driver] being
    set, [this.context.lookupDriver] being available,
    [this.usingEmptyDriver]. *)
Record LookupData := mkLookupData {
  input : nat;
  lookup_chart : nat;
  hasCallback : bool;
  hasDriver : bool;
  contextLookupDriver : bool;
  usingEmptyDriver : bool;
}.

Global Instance LookupData_inhabited : Inhabited LookupData :=
  populate (mkLookupData 0 0 false false false false).

(** [activeMenuStack], [overlay] and [claims] are the properties of the
    [cq-ui-manager] element; [selection] is
    [window.getSelection().toString()]. *)
Record State := mkState {
  doc : list Element;
  activeElement : option nat;
  windowWidth : float;
  windowHeight : float;
  selection : string;
  activeMenuStack : list nat;
  overlay : option nat;
  claims : list nat;
  timers : list Timer;
  charts : gmap nat Stx;
  lookups : gmap nat LookupData;
  undos : gmap nat UndoData;
  log : list Effect;
}.

Definition set_doc (v : list Element) (s : State) : State :=
  let '(mkState _ ae ww wh sel st ov cl tm ch lk un lg) := s in
  mkState v ae ww wh sel st ov cl tm ch lk un lg.

Definition set_activeElement (v : option nat) (s : State) : State :=
  let '(mkState d _ ww wh sel st ov cl tm ch lk un lg) := s in
  mkState d v ww wh sel st ov cl tm ch lk un lg.

Definition set_activeMenuStack (v : list nat) (s : State) : State :=
  let '(mkState d ae ww wh sel _ ov cl tm ch lk un lg) := s in
  mkState d ae ww wh sel v ov cl tm ch lk un lg.

Definition set_overlay (v : option nat) (s : State) : State :=
  let '(mkState d ae ww wh sel st _ cl tm ch lk un lg) := s in
  mkState d ae ww wh sel st v cl tm ch lk un lg.

Definition set_claims (v : list nat) (s : State) : State :=
  let '(mkState d ae ww wh sel st ov _ tm ch lk un lg) := s in
  mkState d ae ww wh sel st ov v tm ch lk un lg.

Definition set_timers (v : list Timer) (s : State) : State :=
  let '(mkState d ae ww wh sel st ov cl _ ch lk un lg) := s in
  mkState d ae ww wh sel st ov cl v ch lk un lg.

Definition set_charts (v : gmap nat Stx) (s : State) : State :=
  let '(mkState d ae ww wh sel st ov cl tm _ lk un lg) := s in
  mkState d ae ww wh sel st ov cl tm v lk un lg.

Definition set_lookups (v : gmap nat LookupData) (s : State) : State :=
  let '(mkState d ae ww wh sel st ov cl tm ch _ un lg) := s in
  mkState d ae ww wh sel st ov cl tm ch v un lg.

Definition set_undos (v : gmap nat UndoData) (s : State) : State :=
  let '(mkState d ae ww wh sel st ov cl tm ch lk _ lg) := s in
  mkState d ae ww wh sel st ov cl tm ch lk v lg.

Definition set_log (v : list Effect) (s : State) : State :=
  let '(mkState d ae ww wh sel st ov cl tm ch lk un _) := s in
  mkState d ae ww wh sel st ov cl tm ch lk un v.

(** A state holding just a document. *)
Definition page (d : list Element) : State :=
  mkState d None zero zero EmptyString [] None [] [] ∅ ∅ ∅ [].

(** Apply [f] to element [i] of the document. *)
Definition update (i : nat) (f : Element → Element) (s : State) : State :=
  set_doc (alter f i (doc s)) s.

Definition emit (e : Effect) (s : State) : State :=
  set_log (log s ++ [e]) s.

(** [$(i).attr(n, 'true')] and [removeAttr(n)]; the plugin methods
    [attrBetter] and [removeAttrBetter] of [componentUI.js] set and remove
    an attribute in the same way. *)
Definition attr (n : string) (i : nat) : State → State :=
  update i (λ e, set_attributes (add_name n (attributes e)) e).

Definition removeAttr (n : string) (i : nat) : State → State :=
  update i (λ e, set_attributes (remove_name n (attributes e)) e).

Definition addClass (n : string) (i : nat) : State → State :=
  update i (λ e, set_classList (add_name n (classList e)) e).

Definition removeClass (n : string) (i : nat) : State → State :=
  update i (λ e, set_classList (remove_name n (classList e)) e).

(** [$(o).find('input').each(function () { if (this ===
    document.activeElement) this.blur(); })]: a focused input inside [o]
    loses focus, anything else keeps it. *)
Definition blurInputsInside (o : nat) (s : State) : State :=
  match activeElement s with
  | Some a =>
      if decide (a ∈ find (doc s) "input" o) then set_activeElement None s else s
  | None => s
  end.

(** ** cq-menu: show and hide *)

(** [Menu.prototype.show].  The calls to [lift] and to the nested
    scrollers' [resize] only restyle other elements (z-order, heights) and
    are left out. *)
Definition Menu_show (self : nat) (p : option Params) (s : State) : State :=
  if isActive (doc s) self then s
  else addClass "stxMenuActive" self (update self (set_active true) s).

(** [Menu.prototype.hide] *)
Definition Menu_hide (self : nat) (s : State) : State :=
  if negb (isActive (doc s) self) then s
  else
    let s1 := removeClass "stxMenuActive" self s in
    let s2 := update self (set_active false) s1 in
    blurInputsInside self s2.

(** ** cq-dialog: placement *)

(** JavaScript truthiness of [params.x]: a number other than zero and
    NaN. *)
Definition truthy_x (p : Params) : bool :=
  match params_x p with
  | Some (S754_zero _) | Some S754_nan | None => false
  | Some _ => true
  end.

Definition parent (d : list Element) (i : nat) : option nat := head (parents d i).

(** [w] and [h] of the region a dialog is placed in: the window when the
    parent is the body, the parent's measured size otherwise.  [None] when
    the dialog has no parent ([parent[0]] is undefined and reading its
    [tagName] throws). *)
Definition region (self : nat) (s : State) : option (float * float) :=
  p ← parent (doc s) self;
  e ← doc s !! p;
  Some (if decide (tagName e = "body") then (windowWidth s, windowHeight s)
        else (guaranteedWidth e, guaranteedHeight e)).

(** What [node.css({left: `${v}px`})] leaves in the inline style, given
    what it held before.  The text of a finite number followed by [px] is
    a length (minus zero prints as [0]); [NaNpx], [Infinitypx] and
    [undefinedpx] are not, and the style keeps its value. *)
Definition css_px (v old : option float) : option float :=
  match v with
  | Some (S754_zero _) => Some zero
  | Some (S754_finite s m e) => Some (S754_finite s m e)
  | _ => old
  end.

(** The [left] computed by [Dialog.prototype.stxContextMenu] from
    [params.x]. *)
Definition contextMenuLeft (w cw : float) (x : option float) : option float :=
  let left := x in
  if fltb w (fadd (toNumber left) cw) then Some (fsub w cw) else left.

(** The [top] computed by [Dialog.prototype.stxContextMenu] from
    [params.y]. *)
Definition contextMenuTop (h ch : float) (y : option float) : option float :=
  let top := y in
  let top := if fltb h (fadd (toNumber top) ch) then Some (fsub (toNumber top) ch) else top in
  if fltb (toNumber top) zero then Some zero else top.

(** [Dialog.prototype.stxContextMenu]; reading [this.params.x] throws
    when [params] is not set. *)
Definition Dialog_stxContextMenu (self : nat) (s : State) : option State :=
  '(w, h) ← region self s;
  e ← doc s !! self;
  p ← params e;
  let cw := outerWidth e in
  let ch := outerHeight e in
  let left := contextMenuLeft w cw (params_x p) in
  let top := contextMenuTop h ch (params_y p) in
  Some (update self (λ e, set_cssLeft (css_px left (cssLeft e))
                            (set_cssTop (css_px top (cssTop e)) e)) s).

Definition two : float := ofZ 2.
Definition three : float := ofZ 3.

(** The [left] computed by [Dialog.prototype.center]. *)
Definition centerLeft (w cw : float) : float :=
  let left := fsub (fdiv w two) (fdiv cw two) in
  if fltb left zero then zero else left.

(** The [top] computed by [Dialog.prototype.center]. *)
Definition centerTop (h ch : float) : float :=
  let top := fsub (fdiv h two) (fdiv ch two) in
  let top :=
    if fltb (fmul ch two) h && fltb (fdiv h three) (fadd top (fdiv ch two))
    then fsub (fdiv h three) (fdiv ch two) else top in
  if fltb top zero then zero else top.

(** [Dialog.prototype.center] *)
Definition Dialog_center (self : nat) (s : State) : option State :=
  '(w, h) ← region self s;
  e ← doc s !! self;
  let cw := outerWidth e in
  let ch := outerHeight e in
  let left := centerLeft w cw in
  let top := centerTop h ch in
  Some (update self (λ e, set_cssLeft (css_px (Some left) (cssLeft e))
                            (set_cssTop (css_px (Some top) (cssTop e)) e)) s).

(** [Dialog.prototype.resize]; resizing the nested scrollers restyles
    them only and is left out. *)
Definition Dialog_resize (self : nat) (s : State) : option State :=
  match doc s !! self ≫= params with
  | Some p =>
      if truthy_x p then Dialog_stxContextMenu self s else Dialog_center self s
  | None => Dialog_center self s
  end.

(** ** cq-dialog: show and hide *)

Definition emptyParams : Params := mkParams None None false.

(** The synchronous half of [Dialog.prototype.show]: it stores [params],
    creates the scrim when none exists, and queues the rest. *)
Definition Dialog_show (self : nat) (p : option Params) (s : State) : State :=
  let p := default emptyParams p in
  let s1 := update self (set_params (Some p)) s in
  let s2 :=
    match overlay s1 with
    | None =>
        if bypassOverlay p then s1
        else
          let scrim := plain "cq-dialog-overlay" (head (select (doc s1) "body")) in
          set_overlay (Some (length (doc s1))) (set_doc (doc s1 ++ [scrim]) s1)
    | Some _ => s1
    end in
  set_timers (timers s2 ++ [DialogShowTimer self p]) s2.

(** The callback [Dialog.prototype.show] hands to [setTimeout].  When
    [resize] throws, the callback ends there and [active] is not set. *)
Definition Dialog_show_timer (self : nat) (p : Params) (s : State) : State :=
  let s1 :=
    match overlay s with
    | Some o => if bypassOverlay p then s else attr "cq-active" o s
    | None => s
    end in
  let s2 :=
    update self (λ e, set_activeAttributes
                        (add_name "cq-active" (activeAttributes e)) e) s1 in
  let s3 :=
    foldl (λ s a, attr a self s) s2
          (from_option activeAttributes [] (doc s2 !! self)) in
  match Dialog_resize self s3 with
  | Some s4 => update self (set_active true) s4
  | None => s3
  end.

(** One turn of the event loop: every queued callback runs, in order. *)
Definition runTimers (s : State) : State :=
  foldl (λ s t, match t with DialogShowTimer i p => Dialog_show_timer i p s end)
        (set_timers [] s) (timers s).

(** [Loader.prototype.hide] *)
Definition Loader_hide (self : nat) : State → State := removeClass "stx-show" self.

(** Modelled from the spec: [colorPicker.close()] is
    [Dialog.prototype.close], that is [uiManager.closeMenu(colorPicker)]
    of [componentUI.js], which is not among the sources: it calls the
    picker's [hide] and then drops the overlays that are no longer active
    from the manager's list.  A [cq-color-picker] inherits its [hide] from
    [Dialog.prototype]; [hideDialog] stands for that method.  The only
    assignment to [colorPicker], in [Swatch.prototype.launchColorPicker],
    stores a [cq-color-picker] element; any other reference is left
    alone. *)
Definition closePicker (hideDialog : nat → State → State) (s : State) (picker : nat)
  : State :=
  if decide (tagOf (doc s) picker = "cq-color-picker") then
    let s1 := hideDialog picker s in
    set_activeMenuStack
      (filter (λ m, isActive (doc s1) m = true) (activeMenuStack s1)) s1
  else s.

(** [StudyDialog.prototype.hide]: queued updates, if there are any, are
    handed to the study helper and the queue is emptied; then every swatch
    inside closes the colour picker it launched.  The [unlift] of the
    menus inside restyles other elements only and is left out. *)
Definition StudyDialog_hide (hideDialog : nat → State → State) (self : nat) (s : State)
  : State :=
  let queued := from_option queuedUpdates [] (doc s !! self) in
  let s1 :=
    if decide (queued = []) then s
    else update self (set_queuedUpdates []) (emit (UpdateStudy self queued) s) in
  foldl (λ s swatch,
           match doc s !! swatch ≫= colorPicker with
           | Some picker => closePicker hideDialog s picker
           | None => s
           end)
        s1 (find (doc s1) "cq-swatch" self).

(** What the loop over the children in [Dialog.prototype.hide] calls: the
    child's own [hide].  The components of the sources that have a [hide]
    method are the menus, the dialogs, the loader, the colour pickers
    (their prototype is created from [Dialog.prototype]) and the study
    dialogs; no other element has one. *)
Definition hideChild (hideDialog : nat → State → State) (s : State) (c : nat) : State :=
  if decide (tagOf (doc s) c = "cq-menu") then Menu_hide c s
  else if decide (tagOf (doc s) c = "cq-dialog") then hideDialog c s
  else if decide (tagOf (doc s) c = "cq-loader") then Loader_hide c s
  else if decide (tagOf (doc s) c = "cq-color-picker") then hideDialog c s
  else if decide (tagOf (doc s) c = "cq-study-dialog") then StudyDialog_hide hideDialog c s
  else s.

(** The rest of [Dialog.prototype.hide], after the loop over the children. *)
Definition Dialog_hide_own (self : nat) (s : State) : State :=
  let s2 := update self (set_active false) s in
  let s3 :=
    match overlay s2 with
    | Some o => removeAttr "cq-active" o s2
    | None => s2
    end in
  let s4 := set_overlay None s3 in
  let s5 :=
    foldl (λ s a, removeAttr a self s) s4
          (from_option activeAttributes [] (doc s4 !! self)) in
  let s6 := update self (set_activeAttributes []) s5 in
  blurInputsInside self s6.

(** [Dialog.prototype.hide].  The method calls itself on the dialogs and
    colour pickers among the children, and on the colour pickers the study
    dialogs among the children close; these calls are followed to depth
    [fuel]. *)
Fixpoint Dialog_hide_rec (fuel : nat) (self : nat) (s : State) : State :=
  if decide (findInvalid (doc s) self = []) then
    let nested :=
      match fuel with
      | 0 => λ _ s, s
      | S fuel' => Dialog_hide_rec fuel'
      end in
    Dialog_hide_own self (foldl (hideChild nested) s (children (doc s) self))
  else s.

(** Twice the length of the document covers every chain of calls on a
    page on which no colour picker that a swatch refers to holds a study
    dialog ([Dialog_hide_rec_enough] below).  On a page where such a
    picker holds a study dialog whose swatch refers back to it, the
    JavaScript calls never end; the model stops at that depth. *)
Definition Dialog_hide (self : nat) (s : State) : State :=
  Dialog_hide_rec (2 * length (doc s)) self s.

(** ** The UI manager *)

(** Overlays are the [cq-menu] and [cq-dialog] elements. *)
Definition overlayTags : list string := ["cq-menu"; "cq-dialog"].

Definition isOverlay (d : list Element) (i : nat) : Prop := tagOf d i ∈ overlayTags.

(** Method dispatch on the element's prototype.  A colour picker is
    opened by [ColorPicker.prototype.display], which is not modelled; its
    [hide] is the one of [Dialog.prototype]. *)
Definition show (o : nat) (p : option Params) (s : State) : State :=
  if decide (tagOf (doc s) o = "cq-menu") then Menu_show o p s
  else if decide (tagOf (doc s) o = "cq-dialog") then Dialog_show o p s
  else s.

Definition hide (o : nat) (s : State) : State :=
  if decide (tagOf (doc s) o = "cq-menu") then Menu_hide o s
  else if decide (tagOf (doc s) o = "cq-dialog") then Dialog_hide o s
  else if decide (tagOf (doc s) o = "cq-color-picker") then Dialog_hide o s
  else s.

(** Modelled from the spec: [uiManager.topMenu], [uiManager.openMenu] and
    [uiManager.closeMenu] belong to [componentUI.js], which is not among
    the sources.  The manager keeps the overlays it opened, oldest first;
    the topmost overlay is the last one.  [openMenu(o, params)] marks [o]
    active and positions it, that is, it records [o] and calls [o.show];
    recording an overlay twice changes nothing.  [closeMenu(o)] marks [o]
    inactive and blurs the input inside it, that is, it calls [o.hide];
    [closeMenu()] does so for every overlay the manager holds.  Overlays
    that are no longer active leave the manager's list.  (The spec's
    "releases any nested scrollable focus" has no counterpart in the [hide]
    methods of the sources and is not modelled.) *)
Definition topMenu (s : State) : option nat := last (activeMenuStack s).

(** Modelled from the spec: [uiManager.openMenu] ([componentUI.js], not
    among the sources) records the overlay as the topmost one, unless the
    manager holds it already, and calls its [show]. *)
Definition openMenu (menu : nat) (p : option Params) (s : State) : State :=
  let stack := activeMenuStack s in
  show menu p
       (set_activeMenuStack (if decide (menu ∈ stack) then stack else stack ++ [menu]) s).

(** Modelled from the spec: [uiManager.closeMenu] ([componentUI.js], not
    among the sources) calls [hide] on the given overlay, or on every
    overlay the manager holds when none is given, and then drops the
    overlays that are no longer active. *)
Definition closeMenu (menu : option nat) (s : State) : State :=
  let closeThese :=
    match menu with
    | Some m => [m]
    | None => activeMenuStack s
    end in
  let s1 := foldl (λ s m, hide m s) s closeThese in
  set_activeMenuStack
    (filter (λ m, isActive (doc s1) m = true) (activeMenuStack s1)) s1.

(** ** cq-menu and cq-dialog: taps *)




(** ** Keystrokes *)

(** A key is a character code or a name ('up', 'enter', ...). *)
Inductive Key :=
  | KeyCode (code : nat)
  | KeyName (name : string).

Global Instance Key_eq_dec : EqDecision Key.
Proof. solve_decision. Defined.

(** The [keystroke] object: the modifier keys held down. *)
Record Keystroke := mkKeystroke {
  ctrl : bool;
  cmd : bool;
  shift : bool;
}.

(** What a [keyStroke] method returns. *)
Inductive Result :=
  | RFalse
  | RUndefined
  | RTrue
  | RAllowDefault.

Definition truthy (r : Result) : bool :=
  match r with
  | RTrue | RAllowDefault => true
  | RFalse | RUndefined => false
  end.

(** A call either returns or ends in a [TypeError]. *)
Inductive Outcome :=
  | Returned (r : Result)
  | Thrown.

Definition handled (o : Outcome) : bool :=
  match o with
  | Returned r => truthy r
  | Thrown => false
  end.

(** *** cq-scroll *)

(** [Scroll.prototype.scrollToElement]; [item] is [None] when the caller
    passes [undefined], and reading [item.offsetTop] then throws. *)
Definition Scroll_scrollToElement (self : nat) (item : option nat) (s : State)
  : option State :=
  match item with
  | None => None
  | Some it =>
      let get (f : Element → Z) (i : nat) : Z := from_option f 0%Z (doc s !! i) in
      let bottom := get clientHeight self in
      let scrolled := get scrollTop self in
      let itemBottom := (get offsetTop it + get clientHeight it)%Z in
      if bool_decide (scrolled < get offsetTop it)%Z
         && bool_decide (itemBottom < bottom + scrolled)%Z
      then Some s
      else Some (update self (set_scrollTop (Z.max (itemBottom - bottom) 0)) s)
  end.

(** [items[i]] for a JavaScript index. *)
Definition nthItem (items : list nat) (i : Z) : option nat :=
  if bool_decide (0 <= i)%Z then items !! Z.to_nat i else None.

(** The position at which the search loop of [keyStroke] stops. *)
Fixpoint indexOf (x : nat) (items : list nat) : Z :=
  match items with
  | [] => 0%Z
  | y :: rest => if decide (y = x) then 0%Z else (1 + indexOf x rest)%Z
  end.

(** [Scroll.prototype.focused] *)
Definition Scroll_focused (self : nat) (s : State) : option nat :=
  head (filter (λ j, hasAttrb (doc s) "cq-focused" j = true)
               (find (doc s) "cq-item" self)).

(** [Scroll.prototype.keyStroke] *)
Definition Scroll_keyStroke (self : nat) (key : Key) (s : State) : State * Outcome :=
  if negb (from_option trulyvisible false (doc s !! self)) then (s, Returned RFalse)
  else if negb (bool_decide (key ∈ [KeyName "up"; KeyName "down"; KeyName "enter"; KeyCode 32]))
  then (s, Returned RFalse)
  else
    let items := find (doc s) "cq-item" self in
    let focused := filter (λ j, hasAttrb (doc s) "cq-focused" j = true) items in
    if bool_decide (key = KeyCode 32 ∨ key = KeyName "enter") then
      match focused with
      | f :: _ =>
          if from_option selectFC false (doc s !! f)
          then (emit (SelectFC f) s, Returned RTrue)
          else (s, Returned RFalse)
      | [] => (s, Returned RFalse)
      end
    else
      match focused with
      | [] =>
          let s1 := match head items with
                    | Some it => attr "cq-focused" it s
                    | None => s
                    end in
          match Scroll_scrollToElement self (head items) s1 with
          | Some s2 => (s2, Returned RTrue)
          | None => (s1, Thrown)
          end
      | f :: _ =>
          let s1 := foldl (λ s it, removeAttr "cq-focused" it s) s items in
          let i := indexOf f items in
          let i :=
            if decide (key = KeyName "up")
            then (if bool_decide (i - 1 < 0)%Z then 0%Z else (i - 1)%Z) else i in
          let i :=
            if decide (key = KeyName "down")
            then (if bool_decide (Z.of_nat (length items) <= i + 1)%Z
                  then (Z.of_nat (length items) - 1)%Z else (i + 1)%Z)
            else i in
          let s2 := match nthItem items i with
                    | Some it => attr "cq-focused" it s1
                    | None => s1
                    end in
          match Scroll_scrollToElement self (nthItem items i) s2 with
          | Some s3 => (s3, Returned RTrue)
          | None => (s2, Thrown)
          end
      end.

(** *** cq-lookup *)

Definition valueOf (i : nat) (s : State) : string :=
  from_option value EmptyString (doc s !! i).

(** Modelled from the spec: [CIQ.blur] belongs to [js/chartiq], which is
    not among the sources.  The element gives up the focus if it has it. *)
Definition blur (i : nat) (s : State) : State :=
  if decide (activeElement s = Some i) then set_activeElement None s else s.

(** [Lookup.prototype.open] and [Lookup.prototype.close] *)
Definition Lookup_open (self : nat) (s : State) : State :=
  match closest (doc s) ["cq-dialog"; "cq-menu"] self with
  | Some o => openMenu o None s
  | None => s
  end.

Definition Lookup_close (self : nat) (s : State) : State :=
  match closest (doc s) ["cq-dialog"; "cq-menu"] self with
  | Some o => closeMenu (Some o) s
  | None => s
  end.

(** [Lookup.prototype.acceptText]: the driver is installed on first use
    and then called. *)
Definition Lookup_acceptText (self : nat) (text : string) (s : State) : State :=
  let l := lookups s !!! self in
  let l' :=
    if hasDriver l then l
    else mkLookupData (input l) (lookup_chart l) (hasCallback l) true
           (contextLookupDriver l)
           (if contextLookupDriver l then usingEmptyDriver l else true) in
  emit (AcceptText self text) (set_lookups (<[self := l']> (lookups s)) s).

(** [Lookup.prototype.selectItem] *)
Definition Lookup_selectItem (self : nat) (symbol : string) (s : State) : State :=
  if hasCallback (lookups s !!! self) then emit (SelectItem self symbol) s else s.

Definition upper_ascii (c : ascii) : ascii :=
  let n := nat_of_ascii c in
  if bool_decide (97 ≤ n ≤ 122) then ascii_of_nat (n - 32) else c.

Fixpoint toUpperCase (t : string) : string :=
  match t with
  | EmptyString => EmptyString
  | String c rest => String (upper_ascii c) (toUpperCase rest)
  end.

Definition fromCharCode (n : nat) : string := String (ascii_of_nat n) EmptyString.

Definition dropLast (t : string) : string := substring 0 (String.length t - 1) t.

Definition isCode (key : Key) (lo hi : nat) : bool :=
  match key with
  | KeyCode n => bool_decide (lo ≤ n ≤ hi)
  | KeyName _ => false
  end.

(** [Lookup.prototype.keyStroke].  The call [focused.selectFC(...{})]
    spreads an object that is not iterable, which throws. *)
Definition Lookup_keyStroke (self : nat) (key : Key) (ks : Keystroke) (s : State)
  : State * Outcome :=
  if ctrl ks || bool_decide (key = KeyCode 91) then (s, Returned RFalse)
  else
    let domChain := domChain (doc s) self in
    let input := input (lookups s !!! self) in
    let focused := bool_decide (activeElement s = Some input) in
    let otherInput :=
      match activeElement s with
      | Some a => bool_decide (tagOf (doc s) a ∈ ["input"; "textarea"])
      | None => false
      end in
    if negb focused && otherInput then (s, Returned RFalse)
    else
      let iAmDisplayed := existsb (hasClassb (doc s) "stxMenuActive") domChain in
      let iAmActive := focused || iAmDisplayed in
      if negb iAmActive && negb (hasAttrb (doc s) "cq-keystroke-default" self)
      then (s, Returned RUndefined)
      else if negb iAmActive && negb iAmDisplayed && bool_decide (is_Some (topMenu s))
      then (s, Returned RUndefined)
      else if bool_decide (key = KeyCode 32) && bool_decide (valueOf input s = EmptyString)
      then (s, Returned RFalse)
      else
        (* key >= 32 && key <= 222 *)
        let '(s, result) :=
          if isCode key 32 222 then
            let s1 :=
              if focused then s
              else
                let code := match key with KeyCode n => n | KeyName _ => 0 end in
                update input (λ e, set_value (value e ++ fromCharCode code) e) s in
            (Lookup_acceptText self (valueOf input s1) s1, true)
          else (s, false) in
        (* key === 'delete' || key === 'backspace' *)
        let isDelete := bool_decide (key = KeyName "delete" ∨ key = KeyName "backspace") in
        if isDelete
           && anyHighlighted (charts s !!! lookup_chart (lookups s !!! self))
        then (s, Returned RFalse)
        else
          let '(s, result) :=
            if isDelete then
              let '(s1, result1) :=
                if bool_decide (valueOf input s ≠ EmptyString) then
                  let s1 :=
                    if bool_decide (selection s ≠ EmptyString)
                    then update input (set_value EmptyString) s
                    else
                      let s1 :=
                        if focused then s
                        else update input (λ e, set_value (dropLast (value e)) e) s in
                      if bool_decide (valueOf input s1 ≠ EmptyString)
                      then Lookup_acceptText self (valueOf input s1) s1
                      else s1 in
                  (s1, true)
                else (s, result) in
              (s1, result1 || bool_decide (key = KeyName "backspace"))
            else (s, result) in
          (* key === 'escape' && iAmDisplayed *)
          let '(s, result) :=
            if bool_decide (key = KeyName "escape") && iAmDisplayed then
              (blur input (Lookup_close self (update input (set_value EmptyString) s)), true)
            else (s, result) in
          (* key === 'enter' && input.value !== '' *)
          let enter :=
            bool_decide (key = KeyName "enter") && bool_decide (valueOf input s ≠ EmptyString) in
          let item :=
            head (find (doc s) "cq-scroll" self) ≫= λ sc, Scroll_focused sc s in
          if enter && from_option (λ it, from_option selectFC false (doc s !! it)) false item
          then (s, Thrown)
          else
            let '(s, result, focused) :=
              if enter then
                let val := valueOf input s in
                let val := if hasAttrb (doc s) "cq-uppercase" self
                           then toUpperCase val else val in
                let s1 := Lookup_selectItem self val s in
                let s2 := Lookup_close self (blur input s1) in
                (update input (set_value EmptyString) s2, true, bool_decide (is_Some item))
              else (s, result, focused) in
            if result then
              let empty := bool_decide (valueOf input s = EmptyString) in
              let s1 :=
                if usingEmptyDriver (lookups s !!! self)
                   || (empty && (bool_decide (key = KeyName "escape" ∨ key = KeyName "enter")
                                 || negb focused))
                then Lookup_close self s
                else Lookup_open self s in
              (s1, Returned (if focused then RAllowDefault else RTrue))
            else (s, Returned RUndefined).

(** *** cq-undo *)

(** JavaScript arrays used as stacks. *)
Definition push {A} (a : list A) (x : A) : list A := a ++ [x].

Definition pop {A} (a : list A) : option A * list A :=
  (last a, take (length a - 1) a).

(** Modelled from the spec: [CIQ.shallowClone] belongs to [js/chartiq],
    which is not among the sources.  A shallow clone is a new array with
    the same elements. *)
Definition shallowClone {A} (a : list A) : list A := foldr cons [] a.

Definition set_undostack (v : list UndoEntry) (u : UndoData) : UndoData :=
  mkUndoData v (redostack u) (contexts u) (redoButton u).

Definition set_redostack (v : list UndoEntry) (u : UndoData) : UndoData :=
  mkUndoData (undostack u) v (contexts u) (redoButton u).

Definition set_drawingObjects (v : list nat) (x : Stx) : Stx :=
  mkStx v (activeDrawing x) (anyHighlighted x).

Definition updateUndo (self : nat) (f : UndoData → UndoData) (s : State) : State :=
  set_undos (<[self := f (undos s !!! self)]> (undos s)) s.

(** [context.stx.drawingObjects = v] *)
Definition assignDrawingObjects (c : nat) (v : list nat) (s : State) : State :=
  set_charts (<[c := set_drawingObjects v (charts s !!! c)]> (charts s)) s.

(** [Undo.prototype.setButtonStyle] *)
Definition Undo_setButtonStyle (self : nat) (s : State) : State :=
  let u := undos s !!! self in
  let s1 :=
    match undostack u with
    | _ :: _ => attr "cq-active" self s
    | [] => removeAttr "cq-active" self s
    end in
  match redoButton u with
  | Some b =>
      match redostack u with
      | _ :: _ => attr "cq-active" b s1
      | [] => removeAttr "cq-active" b s1
      end
  | None => s1
  end.

(** [Undo.prototype.handleEvent] for an [undoStamp] event whose
    [data.before] is [before]. *)
Definition Undo_handleEvent (self : nat) (context : nat) (before : list nat)
    (s : State) : State :=
  let s1 := updateUndo self (λ u, set_undostack
                                    (push (undostack u) (mkUndoEntry context before)) u) s in
  let s2 := updateUndo self (set_redostack []) s1 in
  Undo_setButtonStyle self s2.

(** [Undo.prototype.undo].  With a drawing in progress the engine's own
    [stx.undo()] is called for each such chart and the stacks stay. *)
Definition Undo_undo (self : nat) (s : State) : State :=
  let drawing :=
    filter (λ c, activeDrawing (charts s !!! c) = true) (contexts (undos s !!! self)) in
  match drawing with
  | _ :: _ => foldl (λ s c, emit (StxUndo c) s) s drawing
  | [] =>
      let '(state, rest) := pop (undostack (undos s !!! self)) in
      let s1 := updateUndo self (set_undostack rest) s in
      let s2 :=
        match state with
        | Some st =>
            let context := entry_context st in
            let s2 :=
              updateUndo self
                (λ u, set_redostack
                        (push (redostack u)
                              (mkUndoEntry context
                                 (shallowClone (drawingObjects (charts s1 !!! context))))) u)
                s1 in
            let s3 := assignDrawingObjects context (shallowClone (entry_drawings st)) s2 in
            emit (Draw context) (emit (ChangeOccurred context) s3)
        | None => s1
        end in
      Undo_setButtonStyle self s2
  end.

(** [Undo.prototype.redo] *)
Definition Undo_redo (self : nat) (s : State) : State :=
  let '(state, rest) := pop (redostack (undos s !!! self)) in
  let s1 := updateUndo self (set_redostack rest) s in
  let s2 :=
    match state with
    | Some st =>
        let context := entry_context st in
        let s2 :=
          updateUndo self
            (λ u, set_undostack
                    (push (undostack u)
                          (mkUndoEntry context
                             (shallowClone (drawingObjects (charts s1 !!! context))))) u)
            s1 in
        let s3 := assignDrawingObjects context (shallowClone (entry_drawings st)) s2 in
        emit (Draw context) (emit (ChangeOccurred context) s3)
    | None => s1
    end in
  Undo_setButtonStyle self s2.

(** [Undo.prototype.keyStroke] *)
Definition Undo_keyStroke (self : nat) (key : Key) (ks : Keystroke) (s : State)
  : State * Outcome :=
  if bool_decide (key = KeyCode 90) && (ctrl ks || cmd ks) then
    if shift ks then (Undo_redo self s, Returned RTrue)
    else (Undo_undo self s, Returned RTrue)
  else if bool_decide (key = KeyCode 89) && (ctrl ks || cmd ks) then
    (Undo_redo self s, Returned RTrue)
  else (s, Returned RUndefined).

(** *** Routing *)

(** The [keyStroke] method of a claimant, by its prototype;
    [cq-menu-dropdown] inherits the method of [cq-scroll]. *)
Definition keyStroke (c : nat) (key : Key) (ks : Keystroke) (s : State)
  : State * Outcome :=
  let tag := tagOf (doc s) c in
  if decide (tag ∈ ["cq-scroll"; "cq-menu-dropdown"]) then Scroll_keyStroke c key s
  else if decide (tag = "cq-lookup") then Lookup_keyStroke c key ks s
  else if decide (tag = "cq-undo") then Undo_keyStroke c key ks s
  else (s, Returned RUndefined).

(** Modelled from the spec: the claim registry and the routing of a
    keystroke to the claimants ([addClaim] and the keystroke hub of
    [componentUI.js]) are not among the sources.  The registry is an
    ordered sequence without duplicates; a keystroke is delivered to each
    claimant in registration order until one returns handled.  The result
    is the final state and the claimants consulted, each with what its
    [keyStroke] did. *)
Definition addClaim (c : nat) (s : State) : State :=
  if decide (c ∈ claims s) then s else set_claims (claims s ++ [c]) s.

(** Modelled from the spec: the loop of the keystroke hub
    ([componentUI.js], not among the sources) over the claimants, stopping
    at the first one that returns handled or throws. *)
Fixpoint deliver (cs : list nat) (key : Key) (ks : Keystroke) (s : State)
  : State * list (nat * Outcome) :=
  match cs with
  | [] => (s, [])
  | c :: rest =>
      let '(s1, o) := keyStroke c key ks s in
      match o with
      | Returned r =>
          if truthy r then (s1, [(c, o)])
          else
            let '(s2, t) := deliver rest key ks s1 in
            (s2, (c, o) :: t)
      | Thrown => (s1, [(c, o)])
      end
  end.

(** Modelled from the spec: [routeKeyStroke] delivers a keystroke to the
    registered claimants, in registration order. *)
Definition routeKeyStroke (key : Key) (ks : Keystroke) (s : State)
  : State * list (nat * Outcome) :=
  deliver (claims s) key ks s.

(** ** Routing a tap *)






(** ** Reachable states *)

(** [a] is a proper ancestor of [b]. *)
Definition ancestor (d : list Element) (a b : nat) : Prop := a ∈ parents d b.

Definition activeOverlay (s : State) (o : nat) : Prop :=
  isOverlay (doc s) o ∧ isActive (doc s) o = true.

(** [o] would open in cascade: an overlay above it is active, or no
    overlay is active at all. *)
Definition cascades (s : State) (o : nat) : Prop :=
  (∀ j, ¬ activeOverlay s j) ∨ ∃ P, ancestor (doc s) P o ∧ activeOverlay s P.





(** ** The shape of a document *)

(** What no method of the model rewrites: the tag, the parent and the
    validity of an element, and the colour picker a swatch has launched.
    The traversals depend on nothing else. *)
Definition shapeOf (e : Element) : string * option nat * bool * option nat :=
  (tagName e, parentNode e, invalid e, colorPicker e).

Definition sameShape (d d' : list Element) : Prop :=
  shapeOf <$> d = shapeOf <$> d'.

(** An overlay whose [hide] goes through: a menu, or a dialog without an
    invalid field inside. *)
Definition hideable (d : list Element) (o : nat) : Prop :=
  tagOf d o = "cq-menu" ∨ (tagOf d o = "cq-dialog" ∧ findInvalid d o = []).

(** ** Taps: what the claims speak about *)






(** ** Keystrokes: what the claims speak about *)

(** The claimant's input element has the focus. *)
Definition inputFocused (c : nat) (s : State) : bool :=
  bool_decide (activeElement s = Some (input (lookups s !!! c))).

(** The claimant or one of its ancestors carries the class of an open
    menu. *)
Definition menuChainActive (c : nat) (s : State) : bool :=
  existsb (hasClassb (doc s) "stxMenuActive") (domChain (doc s) c).

(** The claimant declares itself the default target of keystrokes. *)
Definition defaultClaim (c : nat) (s : State) : bool :=
  hasAttrb (doc s) "cq-keystroke-default" c.

Definition visible (c : nat) (s : State) : bool :=
  from_option trulyvisible false (doc s !! c).

(** ** Relations used in the proofs *)

(** [s'] comes from [s] by steps that leave the shape and the timer
    queue alone, never switch an overlay on, and keep on the manager's
    list every overlay that is still active. *)
Definition shrinks (s' s : State) : Prop :=
  sameShape (doc s') (doc s) ∧
  filter (λ m, isActive (doc s') m = true) (activeMenuStack s') =
  filter (λ m, isActive (doc s') m = true) (activeMenuStack s) ∧
  (∀ j, isActive (doc s') j = true → isActive (doc s) j = true) ∧
  timers s' = timers s.

Definition closing (f : State → State) : Prop := ∀ s, shrinks (f s) s.

(** [a] sits inside a colour picker that a swatch has launched. *)
Definition insidePicker (d : list Element) (a : nat) : Prop :=
  ∃ w p, d !! w ≫= colorPicker = Some p ∧ tagOf d p = "cq-color-picker" ∧
         a ∈ descendants d p.

(** [s'] comes from [s] by closing steps that leave the focus where it
    is or take it from an element inside [o] or inside a colour picker
    that a swatch has launched. *)
Definition calms (o : nat) (s' s : State) : Prop :=
  shrinks s' s ∧
  (activeElement s' = activeElement s ∨
   (activeElement s' = None ∧
    ∃ a, activeElement s = Some a ∧
         (a ∈ descendants (doc s) o ∨ insidePicker (doc s) a))).

(** No colour picker that a swatch refers to holds a study dialog. *)
Definition pickersPlain (d : list Element) : Prop :=
  ∀ w p, d !! w ≫= colorPicker = Some p → tagOf d p = "cq-color-picker" →
         find d "cq-study-dialog" p = [].





(** What the placement of a dialog reads from an element. *)
Definition geometryOf (e : Element) :=
  (shapeOf e, params e, outerWidth e, outerHeight e, guaranteedWidth e, guaranteedHeight e).

(** The inline position [resize] writes. *)
Definition place (left top : option float) (e : Element) : Element :=
  set_cssLeft (css_px left (cssLeft e)) (set_cssTop (css_px top (cssTop e)) e).

(** The position [resize] computes, [None] when it throws. *)
Definition placement (self : nat) (s : State) : option (option float * option float) :=
  '(w, h) ← region self s;
  e ← doc s !! self;
  let cw := outerWidth e in
  let ch := outerHeight e in
  let centred := Some (Some (centerLeft w cw), Some (centerTop h ch)) in
  match params e with
  | Some p =>
      if truthy_x p
      then Some (contextMenuLeft w cw (params_x p), contextMenuTop h ch (params_y p))
      else centred
  | None => centred
  end.

(** [s'] and [s] agree on everything the placement of a dialog reads. *)
Definition sameGeometry (s' s : State) : Prop :=
  geometryOf <$> doc s' = geometryOf <$> doc s ∧
  windowWidth s' = windowWidth s ∧ windowHeight s' = windowHeight s.

(** The dialog [self] is displayed with params [p]: nothing is queued,
    its recorded params are [p], its active attributes are set, it is
    active and stands where [resize] puts it (unless [resize] throws), and
    the scrim is lit unless bypassed. *)
Definition settled (self : nat) (p : Params) (s : State) : Prop :=
  timers s = [] ∧
  (∃ e, doc s !! self = Some e ∧ params e = Some p ∧
        "cq-active" ∈ activeAttributes e ∧
        (∀ a, a ∈ activeAttributes e → a ∈ attributes e) ∧
        (∀ l t, placement self s = Some (l, t) → active e = true ∧ place l t e = e)) ∧
  (bypassOverlay p = false →
     ∃ o, overlay s = Some o ∧ ∀ eo, doc s !! o = Some eo → "cq-active" ∈ attributes eo).

(** Every element at [i] satisfies [P]. *)
Definition holdsAt (i : nat) (P : Element → Prop) (s : State) : Prop :=
  ∀ e, doc s !! i = Some e → P e.
(** ** Sample pages *)

(** A page with an undo and a redo button over one chart holding two
    drawings; one earlier state (a single drawing) is on the undo stack. *)
Definition undoPage : State :=
  set_undos {[ 1 := mkUndoData [mkUndoEntry 0 [7]] [] [0] (Some 2) ]}
    (set_charts {[ 0 := mkStx [7; 8] false false ]}
       (page [plain "body" None; plain "cq-undo" (Some 0); plain "cq-redo" (Some 0)])).

(** A 40 x 30 dialog directly under the body of a 100 x 90 window. *)
Definition dialogElement (ow oh : float) : Element :=
  mkElement "cq-dialog" (Some 0) [] [] true false false false 0 None [] None None EmptyString
            ow oh zero zero 0%Z 0%Z 0%Z [] None.

Definition dialogPage : State :=
  mkState [plain "body" None; dialogElement (ofZ 40) (ofZ 30)]
          None (ofZ 100) (ofZ 90) EmptyString [] None [] [] ∅ ∅ ∅ [].


(** An open menu. *)
Definition openMenuElement (parent : option nat) : Element :=
  set_classList ["stxMenuActive"] (set_active true (plain "cq-menu" parent)).

(** An open menu holding an input, next to an input outside any overlay;
    the focus is on [focus]. *)
Definition menuInputPage (focus : option nat) : State :=
  set_activeElement focus
    (set_activeMenuStack [1]
       (page [plain "body" None; openMenuElement (Some 0);
              plain "input" (Some 1); plain "input" (Some 0)])).

(** An invalid input field. *)
Definition invalidInput (parent : option nat) : Element :=
  mkElement "input" parent [] [] true true false false 0 None [] None None EmptyString
            zero zero zero zero 0%Z 0%Z 0%Z [] None.

(** An open dialog whose only field is invalid and focused. *)
Definition invalidDialogPage : State :=
  set_activeElement (Some 2)
    (set_activeMenuStack [1]
       (page [plain "body" None;
              set_attributes ["cq-active"]
                (set_activeAttributes ["cq-active"]
                   (set_active true (plain "cq-dialog" (Some 0))));
              invalidInput (Some 1)])).



(** An open menu [1] with its label [2] and a dropdown [3] that holds an
    item [4], a heading [5], and a [cq-no-close] section [6] with a filter
    [7] in it. *)
Definition dropdownPage : State :=
  set_activeMenuStack [1]
    (page [plain "body" None;
           openMenuElement (Some 0); plain "span" (Some 1);
           plain "cq-menu-dropdown" (Some 1);
           plain "cq-item" (Some 3); plain "cq-heading" (Some 3);
           set_attributes ["cq-no-close"] (plain "cq-lookup-filters" (Some 3));
           plain "cq-filter" (Some 6)]).



(** An open dialog [1] that holds a study dialog [2] with queued updates
    and a swatch [3]; the swatch has launched the colour picker [4], which
    stands beside the dialog, is open and holds an input [5]; a further
    input [6] stands outside both.  The focus is on [focus]. *)
Definition studyDialogPage (focus : option nat) : State :=
  set_activeElement focus
    (set_activeMenuStack [1; 4]
       (page [plain "body" None;
              set_attributes ["cq-active"]
                (set_activeAttributes ["cq-active"]
                   (set_active true (plain "cq-dialog" (Some 0))));
              set_queuedUpdates ["inputs"] (plain "cq-study-dialog" (Some 1));
              set_colorPicker (Some 4) (plain "cq-swatch" (Some 2));
              set_attributes ["cq-active"]
                (set_activeAttributes ["cq-active"]
                   (set_active true (plain "cq-color-picker" (Some 0))));
              plain "input" (Some 4);
              plain "input" (Some 0)])).


(** An open menu [1] with a label [2], and beside it a closed menu [3]
    that holds a lookup [4] with its input [5]. *)
Definition twoMenusPage : State :=
  set_activeMenuStack [1]
    (set_lookups {[ 4 := mkLookupData 5 0 true true true false ]}
       (page [plain "body" None;
              openMenuElement (Some 0); plain "span" (Some 1);
              plain "cq-menu" (Some 0);
              plain "cq-lookup" (Some 3); plain "input" (Some 4)])).

(** A visible scroller without items. *)
Definition emptyScrollPage : State :=
  set_claims [1] (page [plain "body" None; plain "cq-scroll" (Some 0)]).

(** A visible scroller with two items, outside any menu. *)
Definition scrollPage : State :=
  set_claims [1]
    (page [plain "body" None; plain "cq-scroll" (Some 0);
           plain "cq-item" (Some 1); plain "cq-item" (Some 1)]).

(** A lookup that is not visible, claims keystrokes by default, and has
    its input inside; no overlay is open. *)
Definition hiddenLookupPage : State :=
  set_claims [1]
    (set_lookups {[ 1 := mkLookupData 2 0 true true true false ]}
       (page [plain "body" None;
              mkElement "cq-lookup" (Some 0)
                ["cq-keystroke-claim"; "cq-keystroke-default"] []
                false false false false 0 None [] None None EmptyString
                zero zero zero zero 0%Z 0%Z 0%Z [] None;
              plain "input" (Some 1)])).

(** A lookup, a scroller with an item, and the undo button, registered in
    this order. *)
Definition claimsPage : State :=
  set_claims [1; 3; 5]
    (set_undos {[ 5 := mkUndoData [] [] [0] None ]}
       (set_lookups {[ 1 := mkLookupData 2 0 true true true false ]}
          (page [plain "body" None;
                 set_attributes ["cq-keystroke-claim"; "cq-keystroke-default"]
                   (plain "cq-lookup" (Some 0));
                 plain "input" (Some 1);
                 plain "cq-scroll" (Some 0); plain "cq-item" (Some 3);
                 plain "cq-undo" (Some 0)]))).

(** * Properties *)

(** ** Updates keep the shape of the document *)

Lemma doc_update i f s : doc (update i f s) = alter f i (doc s).
Proof. by destruct s. Qed.

Lemma lookup_update i f s e :
  doc s !! i = Some e → doc (update i f s) !! i = Some (f e).
Proof. intros H. by rewrite doc_update, list_lookup_alter_eq, H. Qed.


Lemma update_id i f s :
  (∀ e, doc s !! i = Some e → f e = e) → update i f s = s.
Proof.
  intros Hf. unfold update.
  assert (alter f i (doc s) = doc s) as ->; [|by destruct s].
  apply list_eq. intros j. destruct (decide (i = j)) as [<-|Hne].
  - rewrite list_lookup_alter_eq. destruct (doc s !! i) eqn:E; simpl; [|done].
    by rewrite Hf.
  - by rewrite list_lookup_alter_ne.
Qed.

Global Instance sameShape_equiv : Equivalence sameShape.
Proof.
  unfold sameShape. split.
  - by intros d.
  - by intros d d' H.
  - intros d1 d2 d3 H1 H2. by rewrite H1.
Qed.

Lemma sameShape_alter f i d :
  (∀ e, shapeOf (f e) = shapeOf e) → sameShape (alter f i d) d.
Proof.
  intros Hf. unfold sameShape. apply list_eq. intros j.
  rewrite !list_lookup_fmap. destruct (decide (i = j)) as [<-|Hne].
  - rewrite list_lookup_alter_eq. destruct (d !! i); simpl; [by rewrite Hf | done].
  - by rewrite list_lookup_alter_ne.
Qed.

Lemma sameShape_update i f s :
  (∀ e, shapeOf (f e) = shapeOf e) → sameShape (doc (update i f s)) (doc s).
Proof. intros Hf. rewrite doc_update. by apply sameShape_alter. Qed.

Lemma sameShape_lookup d d' i :
  sameShape d d' → shapeOf <$> d !! i = shapeOf <$> d' !! i.
Proof. intros H. by rewrite <- !list_lookup_fmap, H. Qed.

Lemma sameShape_length d d' : sameShape d d' → length d = length d'.
Proof.
  intros H. rewrite <- (length_fmap shapeOf d), <- (length_fmap shapeOf d'). by rewrite H.
Qed.

Lemma sameShape_tagOf d d' i : sameShape d d' → tagOf d i = tagOf d' i.
Proof.
  intros H. apply (sameShape_lookup _ _ i) in H. unfold tagOf.
  destruct (d !! i), (d' !! i); simpl in *; try done. by injection H.
Qed.

Lemma sameShape_parentNode d d' i :
  sameShape d d' → d !! i ≫= parentNode = d' !! i ≫= parentNode.
Proof.
  intros H. apply (sameShape_lookup _ _ i) in H.
  destruct (d !! i), (d' !! i); simpl in *; try done. by injection H.
Qed.


Lemma sameShape_parents d d' i : sameShape d d' → parents d i = parents d' i.
Proof.
  intros H. unfold parents. generalize i at 1 3. intros fuel. revert i.
  induction fuel as [|fuel IH]; intros i; simpl; [done|].
  rewrite (sameShape_parentNode d d' i H).
  destruct (d' !! i ≫= parentNode) as [p|]; [|done].
  case_decide; [|done]. by rewrite IH.
Qed.

Lemma filter_ext_in {A} (P Q : A → Prop) `{!∀ x, Decision (P x)} `{!∀ x, Decision (Q x)}
    (l : list A) :
  (∀ x, x ∈ l → P x ↔ Q x) → filter P l = filter Q l.
Proof.
  induction l as [|x l IH]; intros Hext; [done|].
  rewrite !filter_cons.
  rewrite IH by (intros y Hy; apply Hext; by right).
  destruct (decide (P x)) as [HP|HP], (decide (Q x)) as [HQ|HQ]; try done.
  - exfalso. apply HQ, Hext; [by left | done].
  - exfalso. apply HP, Hext; [by left | done].
Qed.


Lemma sameShape_parentsOf d d' tags i :
  sameShape d d' → parentsOf d tags i = parentsOf d' tags i.
Proof.
  intros H. unfold parentsOf. rewrite (sameShape_parents d d' i H).
  apply filter_ext_in. intros j _. by rewrite (sameShape_tagOf d d' j H).
Qed.

Lemma sameShape_children d d' i : sameShape d d' → children d i = children d' i.
Proof.
  intros H. unfold children. rewrite (sameShape_length d d' H).
  apply filter_ext_in. intros j _. by rewrite (sameShape_parentNode d d' j H).
Qed.

Lemma sameShape_descendants d d' i :
  sameShape d d' → descendants d i = descendants d' i.
Proof.
  intros H. unfold descendants. rewrite (sameShape_length d d' H).
  apply filter_ext_in. intros j _. by rewrite (sameShape_parents d d' j H).
Qed.

Lemma sameShape_find d d' tag i : sameShape d d' → find d tag i = find d' tag i.
Proof.
  intros H. unfold find. rewrite (sameShape_descendants d d' i H).
  apply filter_ext_in. intros j _. by rewrite (sameShape_tagOf d d' j H).
Qed.


Lemma sameShape_closest d d' tags i :
  sameShape d d' → closest d tags i = closest d' tags i.
Proof.
  intros H. unfold closest. rewrite (sameShape_parents d d' i H). f_equal.
  apply filter_ext_in. intros j _. by rewrite (sameShape_tagOf d d' j H).
Qed.


(** ** Ancestors *)


Lemma parents_from_enough d fuel fuel' i :
  i ≤ fuel → i ≤ fuel' → parents_from d fuel i = parents_from d fuel' i.
Proof.
  revert fuel' i. induction fuel as [|fuel IH]; intros fuel' i Hf Hf'.
  - assert (i = 0) as -> by lia. destruct fuel' as [|fuel']; cbn [parents_from]; [done|].
    destruct (d !! 0 ≫= parentNode) as [q|]; [|done]. case_decide; [lia | done].
  - destruct fuel' as [|fuel']; cbn [parents_from].
    + assert (i = 0) as -> by lia.
      destruct (d !! 0 ≫= parentNode) as [q|]; [|done]. case_decide; [lia | done].
    + destruct (d !! i ≫= parentNode) as [q|]; [|done].
      case_decide; [|done]. f_equal. apply IH; lia.
Qed.

Lemma parents_unfold d i :
  parents d i =
  match d !! i ≫= parentNode with
  | Some p => if decide (p < i) then p :: parents d p else []
  | None => []
  end.
Proof.
  unfold parents. destruct i as [|i]; cbn [parents_from].
  - destruct (d !! 0 ≫= parentNode) as [q|]; [|done]. case_decide; [lia | done].
  - destruct (d !! S i ≫= parentNode) as [q|]; [|done].
    case_decide; [|done]. f_equal. apply parents_from_enough; lia.
Qed.


Lemma parents_trans d a b c : a ∈ parents d b → b ∈ parents d c → a ∈ parents d c.
Proof.
  intros Hab. induction c as [c IH] using lt_wf_ind. rewrite parents_unfold.
  destruct (d !! c ≫= parentNode) as [p|]; [|by intros Hnil; apply elem_of_nil in Hnil].
  case_decide as Hlt; [|by intros Hnil; apply elem_of_nil in Hnil].
  intros [->|Hin]%elem_of_cons; [by right|].
  right. by apply IH.
Qed.



(** ** Frame facts for updates *)

Ltac frame := intros; repeat match goal with s : State |- _ => destruct s end; reflexivity.

(** Settle a decidable statement about a sample page by running it. *)
Ltac by_decide :=
  match goal with
  | |- ?P => apply (@bool_decide_unpack P _); vm_compute; exact I
  end.

Lemma activeElement_update i f s : activeElement (update i f s) = activeElement s.
Proof. frame. Qed.
Lemma activeMenuStack_update i f s : activeMenuStack (update i f s) = activeMenuStack s.
Proof. frame. Qed.
Lemma overlay_update i f s : overlay (update i f s) = overlay s.
Proof. frame. Qed.
Lemma timers_update i f s : timers (update i f s) = timers s.
Proof. frame. Qed.
Lemma doc_set_activeElement v s : doc (set_activeElement v s) = doc s.
Proof. frame. Qed.
Lemma doc_set_activeMenuStack v s : doc (set_activeMenuStack v s) = doc s.
Proof. frame. Qed.
Lemma doc_set_overlay v s : doc (set_overlay v s) = doc s.
Proof. frame. Qed.
Lemma activeMenuStack_set_activeElement v s :
  activeMenuStack (set_activeElement v s) = activeMenuStack s.
Proof. frame. Qed.
Lemma activeMenuStack_set_overlay v s :
  activeMenuStack (set_overlay v s) = activeMenuStack s.
Proof. frame. Qed.
Lemma activeMenuStack_set v s : activeMenuStack (set_activeMenuStack v s) = v.
Proof. frame. Qed.
Lemma activeElement_set v s : activeElement (set_activeElement v s) = v.
Proof. frame. Qed.
Lemma activeElement_set_activeMenuStack v s :
  activeElement (set_activeMenuStack v s) = activeElement s.
Proof. frame. Qed.
Lemma activeElement_set_overlay v s :
  activeElement (set_overlay v s) = activeElement s.
Proof. frame. Qed.

Lemma doc_blurInputsInside o s : doc (blurInputsInside o s) = doc s.
Proof.
  unfold blurInputsInside. destruct (activeElement s); [|done].
  case_decide; [apply doc_set_activeElement | done].
Qed.

Lemma activeMenuStack_blurInputsInside o s :
  activeMenuStack (blurInputsInside o s) = activeMenuStack s.
Proof.
  unfold blurInputsInside. destruct (activeElement s); [|done].
  case_decide; [apply activeMenuStack_set_activeElement | done].
Qed.

(** What [blurInputsInside] does to the focus. *)
Lemma activeElement_blurInputsInside o s :
  activeElement (blurInputsInside o s) =
  match activeElement s with
  | Some a => if decide (a ∈ find (doc s) "input" o) then None else Some a
  | None => None
  end.
Proof.
  unfold blurInputsInside. destruct (activeElement s) as [a|] eqn:E; [|done].
  case_decide; [apply activeElement_set | done].
Qed.

(** *** The [active] flag under updates *)

Lemma isActive_update_keep i f s j :
  (∀ e, active (f e) = active e) →
  isActive (doc (update i f s)) j = isActive (doc s) j.
Proof.
  intros Hf. unfold isActive. rewrite doc_update.
  destruct (decide (i = j)) as [<-|Hne].
  - rewrite list_lookup_alter_eq. destruct (doc s !! i); simpl; [apply Hf | done].
  - by rewrite list_lookup_alter_ne.
Qed.

Lemma isActive_set_active i b s j :
  isActive (doc (update i (set_active b) s)) j =
  if decide (j = i) then match doc s !! i with Some _ => b | None => false end
  else isActive (doc s) j.
Proof.
  unfold isActive. rewrite doc_update. case_decide as Hij.
  - subst j. rewrite list_lookup_alter_eq. destruct (doc s !! i) as [e|]; [|done].
    by destruct e.
  - by rewrite list_lookup_alter_ne.
Qed.

Lemma shape_set_attributes v e : shapeOf (set_attributes v e) = shapeOf e.
Proof. by destruct e. Qed.
Lemma shape_set_classList v e : shapeOf (set_classList v e) = shapeOf e.
Proof. by destruct e. Qed.
Lemma shape_set_active v e : shapeOf (set_active v e) = shapeOf e.
Proof. by destruct e. Qed.
Lemma shape_set_noClose v e : shapeOf (set_noClose v e) = shapeOf e.
Proof. by destruct e. Qed.
Lemma shape_set_activeAttributes v e : shapeOf (set_activeAttributes v e) = shapeOf e.
Proof. by destruct e. Qed.
Lemma active_set_attributes v e : active (set_attributes v e) = active e.
Proof. by destruct e. Qed.
Lemma active_set_classList v e : active (set_classList v e) = active e.
Proof. by destruct e. Qed.
Lemma active_set_noClose v e : active (set_noClose v e) = active e.
Proof. by destruct e. Qed.
Lemma active_set_activeAttributes v e : active (set_activeAttributes v e) = active e.
Proof. by destruct e. Qed.

Lemma filter_filter_imp {A} (P Q : A → Prop) `{!∀ x, Decision (P x)}
    `{!∀ x, Decision (Q x)} (l : list A) :
  (∀ x, P x → Q x) → filter P (filter Q l) = filter P l.
Proof.
  intros Himp. induction l as [|x l IH]; [done|].
  rewrite (filter_cons Q), (filter_cons P).
  destruct (decide (Q x)) as [HQ|HQ].
  - rewrite filter_cons, IH. done.
  - rewrite IH. destruct (decide (P x)) as [HP|HP]; [|done]. by apply Himp in HP.
Qed.

Lemma shrinks_refl s : shrinks s s.
Proof. by split. Qed.

(** Steps that leave the manager's list as it is. *)
Lemma shrinks_same_stack s' s :
  sameShape (doc s') (doc s) → activeMenuStack s' = activeMenuStack s →
  (∀ j, isActive (doc s') j = true → isActive (doc s) j = true) →
  timers s' = timers s → shrinks s' s.
Proof. intros H1 H2 H3 H4. split; [done|]. split; [by rewrite H2 | done]. Qed.

Lemma shrinks_trans s1 s2 s3 : shrinks s1 s2 → shrinks s2 s3 → shrinks s1 s3.
Proof.
  intros (H1 & H2 & H3 & T1) (H4 & H5 & H6 & T2).
  split; [by etrans|]. split; [|split; [eauto | congruence]].
  rewrite H2.
  rewrite <- (filter_filter_imp (λ m, isActive (doc s1) m = true)
                (λ m, isActive (doc s2) m = true) (activeMenuStack s2)) by apply H3.
  rewrite H5. by apply filter_filter_imp.
Qed.

Lemma closing_id : closing (λ s, s).
Proof. intros s. apply shrinks_refl. Qed.

Lemma closing_compose f g : closing f → closing g → closing (λ s, g (f s)).
Proof. intros Hf Hg s. eapply shrinks_trans; [apply Hg | apply Hf]. Qed.

Lemma closing_foldl {A} (f : State → A → State) (l : list A) :
  (∀ x, closing (λ s, f s x)) → closing (λ s, foldl f s l).
Proof.
  intros Hf. induction l as [|x l IH]; simpl; [apply closing_id|].
  apply (closing_compose (λ s, f s x) (λ s, foldl f s l)); [apply Hf | apply IH].
Qed.

Lemma closing_update i f :
  (∀ e, shapeOf (f e) = shapeOf e) →
  (∀ e, active (f e) = true → active e = true) →
  closing (update i f).
Proof.
  intros Hshape Hact s.
  apply shrinks_same_stack;
    [by apply sameShape_update | apply activeMenuStack_update | | apply timers_update].
  intros j. unfold isActive. rewrite doc_update.
  destruct (decide (i = j)) as [<-|Hne].
  - rewrite list_lookup_alter_eq. destruct (doc s !! i); simpl; [apply Hact | done].
  - by rewrite list_lookup_alter_ne.
Qed.

Lemma closing_removeAttr n i : closing (removeAttr n i).
Proof. apply closing_update; intros e; by destruct e. Qed.

Lemma closing_removeClass n i : closing (removeClass n i).
Proof. apply closing_update; intros e; by destruct e. Qed.

Lemma closing_set_inactive i : closing (update i (set_active false)).
Proof. apply closing_update; intros e; by destruct e. Qed.

Lemma closing_set_activeAttributes v i : closing (update i (set_activeAttributes v)).
Proof. apply closing_update; intros e; by destruct e. Qed.

Lemma timers_blurInputsInside o s : timers (blurInputsInside o s) = timers s.
Proof.
  unfold blurInputsInside. destruct (activeElement s); [|done].
  case_decide; [by destruct s | done].
Qed.

Lemma closing_blurInputsInside o : closing (blurInputsInside o).
Proof.
  intros s. apply shrinks_same_stack;
    [by rewrite doc_blurInputsInside | apply activeMenuStack_blurInputsInside
    | by rewrite doc_blurInputsInside | apply timers_blurInputsInside].
Qed.

Lemma closing_set_overlay v : closing (set_overlay v).
Proof. intros s. apply shrinks_same_stack; by destruct s. Qed.

Lemma closing_emit e : closing (emit e).
Proof. intros s. apply shrinks_same_stack; by destruct s. Qed.

Lemma closing_set_queuedUpdates v i : closing (update i (set_queuedUpdates v)).
Proof. apply closing_update; intros e; by destruct e. Qed.

(** The manager drops the overlays that are no longer active. *)
Lemma shrinks_drop s :
  shrinks (set_activeMenuStack
             (filter (λ m, isActive (doc s) m = true) (activeMenuStack s)) s) s.
Proof.
  split; [by rewrite doc_set_activeMenuStack|].
  rewrite doc_set_activeMenuStack, activeMenuStack_set.
  split; [by apply filter_filter_imp|]. split; [done | by destruct s].
Qed.

Lemma closing_Menu_hide m : closing (Menu_hide m).
Proof.
  intros s. unfold Menu_hide.
  destruct (negb (isActive (doc s) m)); [apply shrinks_refl|].
  eapply shrinks_trans; [apply (closing_blurInputsInside m)|].
  eapply shrinks_trans; [apply (closing_set_inactive m)|].
  apply (closing_removeClass "stxMenuActive" m).
Qed.

Lemma closing_Dialog_hide_own o : closing (Dialog_hide_own o).
Proof.
  intros s. unfold Dialog_hide_own. cbv zeta.
  eapply shrinks_trans; [apply (closing_blurInputsInside o)|].
  eapply shrinks_trans; [apply (closing_set_activeAttributes [] o)|].
  eapply shrinks_trans.
  { apply (closing_foldl (λ s a, removeAttr a o s)). intros a. apply closing_removeAttr. }
  eapply shrinks_trans; [apply (closing_set_overlay None)|].
  eapply shrinks_trans; [|apply (closing_set_inactive o)].
  destruct (overlay _); [apply closing_removeAttr | apply shrinks_refl].
Qed.

Lemma closing_closePicker nested p :
  (∀ c, closing (nested c)) → closing (λ s, closePicker nested s p).
Proof.
  intros Hn s. unfold closePicker. case_decide; [|apply shrinks_refl].
  eapply shrinks_trans; [apply shrinks_drop | apply Hn].
Qed.

Lemma closing_StudyDialog_hide nested c :
  (∀ c, closing (nested c)) → closing (StudyDialog_hide nested c).
Proof.
  intros Hn s. unfold StudyDialog_hide. cbv zeta.
  eapply shrinks_trans.
  { apply (closing_foldl
             (λ s swatch, match doc s !! swatch ≫= colorPicker with
                          | Some picker => closePicker nested s picker
                          | None => s
                          end)).
    intros w s'. destruct (doc s' !! w ≫= colorPicker);
      [by apply closing_closePicker | apply shrinks_refl]. }
  case_decide; [apply shrinks_refl|].
  eapply shrinks_trans; [apply closing_set_queuedUpdates | apply closing_emit].
Qed.

Lemma closing_hideChild nested c :
  (∀ c, closing (nested c)) → closing (λ s, hideChild nested s c).
Proof.
  intros Hn s. unfold hideChild, Loader_hide.
  repeat case_decide;
    [apply closing_Menu_hide | apply Hn | apply closing_removeClass | apply Hn
    | by apply closing_StudyDialog_hide | apply shrinks_refl].
Qed.

Lemma closing_Dialog_hide_rec fuel o : closing (Dialog_hide_rec fuel o).
Proof.
  revert o. induction fuel as [|fuel IH]; intros o s; simpl.
  - case_decide; [|apply shrinks_refl].
    eapply shrinks_trans; [apply closing_Dialog_hide_own|].
    apply (closing_foldl (hideChild (λ _ s, s))).
    intros c. apply closing_hideChild. intros _. apply closing_id.
  - case_decide; [|apply shrinks_refl].
    eapply shrinks_trans; [apply closing_Dialog_hide_own|].
    apply (closing_foldl (hideChild (Dialog_hide_rec fuel))).
    intros c. apply closing_hideChild. apply IH.
Qed.



(** ** Hiding and showing *)

Lemma Menu_hide_inactive m s : isActive (doc (Menu_hide m s)) m = false.
Proof.
  unfold Menu_hide. destruct (isActive (doc s) m) eqn:E; simpl; [|done].
  rewrite doc_blurInputsInside, isActive_set_active.
  rewrite decide_True by done. by destruct (doc _ !! m).
Qed.

Lemma Menu_hide_other m s j : j ≠ m → isActive (doc (Menu_hide m s)) j = isActive (doc s) j.
Proof.
  intros Hne. unfold Menu_hide. destruct (isActive (doc s) m) eqn:E; simpl; [|done].
  rewrite doc_blurInputsInside, isActive_set_active.
  rewrite decide_False by done.
  apply isActive_update_keep. intros e. by destruct e.
Qed.

Lemma Dialog_hide_own_shrinks o s :
  shrinks (Dialog_hide_own o s) (update o (set_active false) s).
Proof.
  unfold Dialog_hide_own. cbv zeta.
  eapply shrinks_trans; [apply (closing_blurInputsInside o)|].
  eapply shrinks_trans; [apply (closing_set_activeAttributes [] o)|].
  eapply shrinks_trans.
  { apply (closing_foldl (λ s a, removeAttr a o s)). intros a. apply closing_removeAttr. }
  eapply shrinks_trans; [apply (closing_set_overlay None)|].
  destruct (overlay _); [apply closing_removeAttr | apply shrinks_refl].
Qed.

Lemma Dialog_hide_own_inactive o s : isActive (doc (Dialog_hide_own o s)) o = false.
Proof.
  destruct (isActive (doc (Dialog_hide_own o s)) o) eqn:E; [|done].
  apply (Dialog_hide_own_shrinks o s) in E.
  rewrite isActive_set_active, decide_True in E by done.
  by destruct (doc s !! o).
Qed.

Lemma Dialog_hide_rec_inactive fuel o s :
  findInvalid (doc s) o = [] → isActive (doc (Dialog_hide_rec fuel o s)) o = false.
Proof.
  intros Hvalid. destruct fuel; simpl; rewrite decide_True by done;
    apply Dialog_hide_own_inactive.
Qed.

Lemma Dialog_hide_rec_invalid fuel o s :
  findInvalid (doc s) o ≠ [] → Dialog_hide_rec fuel o s = s.
Proof. intros Hinv. destruct fuel; simpl; by rewrite decide_False. Qed.


Lemma hide_inactive o s : hideable (doc s) o → isActive (doc (hide o s)) o = false.
Proof.
  intros [Hm|[Hd Hv]]; unfold hide.
  - rewrite decide_True by done. apply Menu_hide_inactive.
  - rewrite decide_False by (rewrite Hd; done). rewrite decide_True by done.
    by apply Dialog_hide_rec_inactive.
Qed.














(** ** The depth bound of [Dialog_hide] is enough *)

Lemma children_bounds d o c : c ∈ children d o → o < c < length d.
Proof.
  unfold children. intros [[_ Hlt] Hc%elem_of_seq]%list_elem_of_filter. lia.
Qed.

Lemma children_parents d o c : c ∈ children d o → o ∈ parents d c.
Proof.
  unfold children. intros [[Hp Hlt] _]%list_elem_of_filter.
  rewrite parents_unfold, Hp. rewrite decide_True by done. by left.
Qed.

Lemma elem_of_descendants d o j : j ∈ descendants d o ↔ o ∈ parents d j ∧ j < length d.
Proof.
  unfold descendants. rewrite list_elem_of_filter, elem_of_seq. split.
  - intros [? ?]. split; [done | lia].
  - intros [? ?]. split; [done | lia].
Qed.

Lemma descendants_mono d o c j :
  o ∈ parents d c → j ∈ descendants d c → j ∈ descendants d o.
Proof.
  rewrite !elem_of_descendants. intros Hoc [Hcj Hlt]. split; [|done].
  by apply (parents_trans d o c j).
Qed.

Lemma find_descendants d tag o j : j ∈ find d tag o → j ∈ descendants d o.
Proof. unfold find. by intros [_ ?]%list_elem_of_filter. Qed.

(** Two folds that agree step by step on the states they pass through. *)
Lemma foldl_ext_inv {A} (I : State → Prop) (f g : State → A → State) (l : list A) s :
  I s → (∀ s x, I s → x ∈ l → f s x = g s x) → (∀ s x, I s → I (f s x)) →
  foldl f s l = foldl g s l.
Proof.
  intros Hs Hext Hinv. revert s Hs. induction l as [|x l IH]; intros s Hs; simpl; [done|].
  rewrite <- (Hext s x Hs) by (by left).
  apply IH; [|by apply Hinv].
  intros s' y Hs' Hy. apply Hext; [done | by right].
Qed.

Lemma sameShape_colorPicker d d' i :
  sameShape d d' → d !! i ≫= colorPicker = d' !! i ≫= colorPicker.
Proof.
  intros H. apply (sameShape_lookup _ _ i) in H.
  destruct (d !! i), (d' !! i); simpl in *; try done. by injection H.
Qed.

Lemma pickersPlain_sameShape d d' : sameShape d d' → pickersPlain d' → pickersPlain d.
Proof.
  intros H Hp w p Hw Ht.
  rewrite (sameShape_find d d' _ p H). apply (Hp w).
  - by rewrite <- (sameShape_colorPicker d d' w H).
  - by rewrite <- (sameShape_tagOf d d' p H).
Qed.

(** Below an element that holds no study dialog, [hide] calls itself on
    children only, and the distance to the end of the document bounds the
    depth. *)
Lemma Dialog_hide_rec_plain fuel fuel' o s :
  find (doc s) "cq-study-dialog" o = [] →
  length (doc s) - o ≤ fuel → length (doc s) - o ≤ fuel' →
  Dialog_hide_rec fuel o s = Dialog_hide_rec fuel' o s.
Proof.
  revert fuel' o s. induction fuel as [|fuel IH]; intros fuel' o s Hplain Hf Hf'.
  - assert (Hnone : children (doc s) o = []).
    { apply elem_of_nil_inv. intros c Hc%children_bounds. lia. }
    destruct fuel'; simpl; by rewrite Hnone.
  - destruct fuel' as [|fuel']; simpl.
    + assert (Hnone : children (doc s) o = []).
      { apply elem_of_nil_inv. intros c Hc%children_bounds. lia. }
      by rewrite Hnone.
    + case_decide; [|done]. f_equal.
      apply (foldl_ext_inv (λ s', sameShape (doc s') (doc s))); [done | |].
      * intros s' c Hshape Hc.
        rewrite <- (sameShape_children _ _ o Hshape) in Hc.
        pose proof (children_bounds _ _ _ Hc) as Hb.
        pose proof (children_parents _ _ _ Hc) as Hoc.
        assert (Hplain' : find (doc s') "cq-study-dialog" o = [])
          by (by rewrite (sameShape_find _ _ _ o Hshape)).
        assert (Hplain_c : find (doc s') "cq-study-dialog" c = []).
        { apply elem_of_nil_inv. intros j Hj.
          apply list_elem_of_filter in Hj as [Ht Hd].
          assert (Hin : j ∈ find (doc s') "cq-study-dialog" o).
          { apply list_elem_of_filter. split; [done|]. by apply (descendants_mono _ o c). }
          rewrite Hplain' in Hin. by apply elem_of_nil in Hin. }
        pose proof (sameShape_length _ _ Hshape) as Hlen.
        unfold hideChild. repeat case_decide; try done.
        -- apply IH; [done | lia | lia].
        -- apply IH; [done | lia | lia].
        -- exfalso.
           assert (Hin : c ∈ find (doc s') "cq-study-dialog" o).
           { apply list_elem_of_filter. split; [done|].
             apply elem_of_descendants. split; [done | lia]. }
           rewrite Hplain' in Hin. by apply elem_of_nil in Hin.
      * intros s' c Hshape. etrans; [|exact Hshape].
        apply closing_hideChild. apply closing_Dialog_hide_rec.
Qed.

(** On a page on which no colour picker that a swatch refers to holds a
    study dialog, any two depth bounds of at least twice the length of the
    document give the same result: the bound used by [Dialog_hide] never
    cuts a call off. *)
Lemma Dialog_hide_rec_enough fuel fuel' o s :
  pickersPlain (doc s) →
  2 * length (doc s) - o ≤ fuel → 2 * length (doc s) - o ≤ fuel' →
  Dialog_hide_rec fuel o s = Dialog_hide_rec fuel' o s.
Proof.
  revert fuel' o s. induction fuel as [|fuel IH]; intros fuel' o s Hpp Hf Hf'.
  - assert (Hnone : children (doc s) o = []).
    { apply elem_of_nil_inv. intros c Hc%children_bounds. lia. }
    destruct fuel'; simpl; by rewrite Hnone.
  - destruct fuel' as [|fuel']; simpl.
    + assert (Hnone : children (doc s) o = []).
      { apply elem_of_nil_inv. intros c Hc%children_bounds. lia. }
      by rewrite Hnone.
    + case_decide; [|done]. f_equal.
      apply (foldl_ext_inv (λ s', sameShape (doc s') (doc s))); [done | |].
      * intros s' c Hshape Hc.
        rewrite <- (sameShape_children _ _ o Hshape) in Hc.
        pose proof (children_bounds _ _ _ Hc) as Hb.
        pose proof (sameShape_length _ _ Hshape) as Hlen.
        pose proof (pickersPlain_sameShape _ _ Hshape Hpp) as Hpp'.
        unfold hideChild. repeat case_decide; try done.
        -- apply IH; [done | lia | lia].
        -- apply IH; [done | lia | lia].
        -- unfold StudyDialog_hide. cbv zeta.
           match goal with
           | |- foldl _ ?s0 ?l = _ =>
               apply (foldl_ext_inv (λ s'', sameShape (doc s'') (doc s')) _ _ l s0)
           end.
           ++ case_decide; [done|].
              etrans; [apply closing_set_queuedUpdates | apply closing_emit].
           ++ intros s'' w Hshape'' _.
              destruct (doc s'' !! w ≫= colorPicker) as [p|] eqn:Hw; [|done].
              unfold closePicker. case_decide as Hp; [|done].
              pose proof (pickersPlain_sameShape _ _ Hshape'' Hpp' w p Hw Hp) as Hplain.
              pose proof (sameShape_length _ _ Hshape'') as Hlen''.
              rewrite (Dialog_hide_rec_plain fuel fuel' p s''); [done | done | lia | lia].
           ++ intros s'' w Hshape''. etrans; [|exact Hshape''].
              destruct (doc s'' !! w ≫= colorPicker) as [p|]; [|done].
              apply closing_closePicker. apply closing_Dialog_hide_rec.
      * intros s' c Hshape. etrans; [|exact Hshape].
        apply closing_hideChild. apply closing_Dialog_hide_rec.
Qed.

Lemma Dialog_hide_enough fuel o s :
  pickersPlain (doc s) → 2 * length (doc s) ≤ fuel →
  Dialog_hide_rec fuel o s = Dialog_hide o s.
Proof. intros Hp Hf. unfold Dialog_hide. apply Dialog_hide_rec_enough; [done | lia | lia]. Qed.

(** A test of [pickersPlain] that can be run. *)
Lemma pickersPlain_check d :
  Forall (λ w, from_option
                 (λ p, bool_decide (tagOf d p = "cq-color-picker" →
                                    find d "cq-study-dialog" p = []))
                 true (d !! w ≫= colorPicker) = true)
         (seq 0 (length d)) →
  pickersPlain d.
Proof.
  intros Hall w p Hw Ht.
  assert (Hlt : w < length d).
  { apply lookup_lt_is_Some. destruct (d !! w); [by eexists | done]. }
  assert (Hin : w ∈ seq 0 (length d)) by (apply elem_of_seq; lia).
  pose proof (proj1 (Forall_forall _ _) Hall w Hin) as Hcheck.
  cbv beta in Hcheck. rewrite Hw in Hcheck. simpl in Hcheck.
  apply bool_decide_eq_true in Hcheck. by apply Hcheck.
Qed.

(** ** Focus while hiding *)

Lemma insidePicker_sameShape d d' a :
  sameShape d d' → insidePicker d a → insidePicker d' a.
Proof.
  intros H (w & p & Hw & Ht & Hin). exists w, p.
  by rewrite <- (sameShape_colorPicker d d' w H), <- (sameShape_tagOf d d' p H),
    <- (sameShape_descendants d d' p H).
Qed.

Lemma calms_refl o s : calms o s s.
Proof. split; [apply shrinks_refl | by left]. Qed.

Lemma calms_trans o s1 s2 s3 : calms o s1 s2 → calms o s2 s3 → calms o s1 s3.
Proof.
  intros [H12 F12] [H23 F23]. split; [by eapply shrinks_trans|].
  destruct F12 as [E12|(E12 & a & Ha & Hin)].
  - rewrite E12. exact F23.
  - right. split; [done|]. destruct F23 as [E23|(E23 & _)]; [|congruence].
    exists a. split; [congruence|].
    destruct H23 as (Hshape & _). destruct Hin as [Hin|Hin]; [left | right].
    + by rewrite <- (sameShape_descendants _ _ o Hshape).
    + by apply (insidePicker_sameShape _ _ a Hshape).
Qed.

Lemma calms_keep o s' s :
  shrinks s' s → activeElement s' = activeElement s → calms o s' s.
Proof. intros H E. split; [done | by left]. Qed.

Lemma calms_mono o c s' s :
  o ∈ parents (doc s) c → calms c s' s → calms o s' s.
Proof.
  intros Hoc [H [E|(E & a & Ha & Hin)]]; split; try done; [by left|].
  right. split; [done|]. exists a. split; [done|].
  destruct Hin as [Hin|Hin]; [left; by apply (descendants_mono _ o c) | by right].
Qed.

(** What is taken from inside a colour picker counts for every [o]. *)
Lemma calms_picker o w p s' s :
  doc s !! w ≫= colorPicker = Some p → tagOf (doc s) p = "cq-color-picker" →
  calms p s' s → calms o s' s.
Proof.
  intros Hw Hp [H [E|(E & a & Ha & Hin)]]; split; try done; [by left|].
  right. split; [done|]. exists a. split; [done|]. right.
  destruct Hin as [Hin|Hin]; [by exists w, p | done].
Qed.

Lemma calms_blurInputsInside o s : calms o (blurInputsInside o s) s.
Proof.
  split; [apply closing_blurInputsInside|].
  rewrite activeElement_blurInputsInside.
  destruct (activeElement s) as [a|] eqn:E; [|by left].
  case_decide as Hin; [|by left].
  right. split; [done|]. exists a. split; [done|]. left.
  by apply (find_descendants _ "input").
Qed.

Lemma activeElement_removeAttr_all o l s :
  activeElement (foldl (λ s a, removeAttr a o s) s l) = activeElement s.
Proof.
  revert s. induction l as [|a l IH]; intros s; simpl; [done|].
  rewrite IH. apply activeElement_update.
Qed.

Lemma calms_Menu_hide m s : calms m (Menu_hide m s) s.
Proof.
  unfold Menu_hide. destruct (negb (isActive (doc s) m)); [apply calms_refl|].
  eapply calms_trans; [apply calms_blurInputsInside|].
  apply calms_keep.
  - eapply shrinks_trans; [apply (closing_set_inactive m)|].
    apply (closing_removeClass "stxMenuActive" m).
  - unfold removeClass. by rewrite !activeElement_update.
Qed.

(** The focus after the dialog's own part of [hide]. *)
Lemma Dialog_hide_own_focus o s :
  activeElement (Dialog_hide_own o s) =
  match activeElement s with
  | Some a => if decide (a ∈ find (doc s) "input" o) then None else Some a
  | None => None
  end.
Proof.
  unfold Dialog_hide_own. cbv zeta. rewrite activeElement_blurInputsInside.
  rewrite activeElement_update, activeElement_removeAttr_all, activeElement_set_overlay.
  assert (Hfocus : activeElement
            match overlay (update o (set_active false) s) with
            | Some ov => removeAttr "cq-active" ov (update o (set_active false) s)
            | None => update o (set_active false) s
            end = activeElement s).
  { destruct (overlay _); unfold removeAttr; by rewrite !activeElement_update. }
  rewrite Hfocus. destruct (activeElement s) as [a|]; [|done].
  assert (Hshape : sameShape
            (doc (update o (set_activeAttributes [])
               (foldl (λ s a, removeAttr a o s)
                  (set_overlay None
                     match overlay (update o (set_active false) s) with
                     | Some ov => removeAttr "cq-active" ov (update o (set_active false) s)
                     | None => update o (set_active false) s
                     end)
                  (from_option activeAttributes []
                     (doc (set_overlay None
                        match overlay (update o (set_active false) s) with
                        | Some ov => removeAttr "cq-active" ov (update o (set_active false) s)
                        | None => update o (set_active false) s
                        end) !! o))))) (doc s)).
  { etrans; [apply (closing_set_activeAttributes [] o)|].
    etrans.
    { apply (closing_foldl (λ s a, removeAttr a o s)). intros a'. apply closing_removeAttr. }
    etrans; [apply (closing_set_overlay None)|].
    etrans; [|apply (closing_set_inactive o)].
    destruct (overlay _); [apply closing_removeAttr | done]. }
  by rewrite (sameShape_find _ _ "input" o Hshape).
Qed.

Lemma calms_Dialog_hide_own o s : calms o (Dialog_hide_own o s) s.
Proof.
  split; [apply closing_Dialog_hide_own|].
  rewrite Dialog_hide_own_focus.
  destruct (activeElement s) as [a|] eqn:E; [|by left].
  case_decide as Hin; [|by left].
  right. split; [done|]. exists a. split; [done|]. left.
  by apply (find_descendants _ "input").
Qed.

Lemma calms_closePicker nested o w p s :
  doc s !! w ≫= colorPicker = Some p →
  (∀ c s, calms c (nested c s) s) → calms o (closePicker nested s p) s.
Proof.
  intros Hw Hn. unfold closePicker. case_decide as Hp; [|apply calms_refl].
  eapply calms_trans; [|apply (calms_picker o w p); [done | done | apply Hn]].
  apply calms_keep; [apply shrinks_drop | apply activeElement_set_activeMenuStack].
Qed.

Lemma calms_StudyDialog_hide nested o c s :
  (∀ c s, calms c (nested c s) s) → calms o (StudyDialog_hide nested c s) s.
Proof.
  intros Hn. unfold StudyDialog_hide. cbv zeta.
  match goal with
  | |- calms _ (foldl ?f _ _) _ =>
      assert (Hfold : ∀ ws s', calms o (foldl f s' ws) s');
      [|eapply calms_trans; [apply Hfold|]]
  end.
  { clear s. intros l. induction l as [|w l IH]; intros s; simpl; [apply calms_refl|].
    eapply calms_trans; [apply IH|].
    destruct (doc s !! w ≫= colorPicker) as [p|] eqn:Hw;
      [by apply (calms_closePicker nested o w) | apply calms_refl]. }
  case_decide; [apply calms_refl|].
  apply calms_keep.
  - eapply shrinks_trans; [apply closing_set_queuedUpdates | apply closing_emit].
  - rewrite activeElement_update. by destruct s.
Qed.

Lemma calms_hideChild nested c s :
  (∀ c s, calms c (nested c s) s) → calms c (hideChild nested s c) s.
Proof.
  intros Hn. unfold hideChild, Loader_hide. repeat case_decide.
  - apply calms_Menu_hide.
  - apply Hn.
  - apply calms_keep; [apply closing_removeClass|].
    unfold removeClass. apply activeElement_update.
  - apply Hn.
  - by apply calms_StudyDialog_hide.
  - apply calms_refl.
Qed.

Lemma calms_hide_children nested o l s :
  (∀ c s, calms c (nested c s) s) →
  (∀ c, c ∈ l → o ∈ parents (doc s) c) →
  calms o (foldl (hideChild nested) s l) s.
Proof.
  intros Hn. revert s. induction l as [|c l IH]; intros s Hl; simpl; [apply calms_refl|].
  assert (Hc : calms o (hideChild nested s c) s).
  { apply (calms_mono o c); [apply Hl; by left | by apply calms_hideChild]. }
  eapply calms_trans; [|exact Hc]. apply IH. intros c' Hc'.
  destruct Hc as [(Hshape & _) _].
  rewrite (sameShape_parents _ _ c' Hshape). apply Hl. by right.
Qed.

Lemma calms_Dialog_hide_rec fuel o s : calms o (Dialog_hide_rec fuel o s) s.
Proof.
  revert o s. induction fuel as [|fuel IH]; intros o s; simpl.
  - case_decide; [|apply calms_refl].
    eapply calms_trans; [apply calms_Dialog_hide_own|].
    apply calms_hide_children; [intros; apply calms_refl | apply children_parents].
  - case_decide; [|apply calms_refl].
    eapply calms_trans; [apply calms_Dialog_hide_own|].
    apply calms_hide_children; [apply IH | apply children_parents].
Qed.

(** The focus after a dialog's [hide] that goes through. *)
Lemma Dialog_hide_rec_focus fuel o s a :
  findInvalid (doc s) o = [] → activeElement s = Some a →
  (a ∈ find (doc s) "input" o → activeElement (Dialog_hide_rec fuel o s) = None) ∧
  (a ∉ descendants (doc s) o → ¬ insidePicker (doc s) a →
   activeElement (Dialog_hide_rec fuel o s) = Some a).
Proof.
  intros Hvalid Ha. split.
  - intros Hin.
    assert (Hrec : ∃ X, Dialog_hide_rec fuel o s = Dialog_hide_own o X ∧ calms o X s).
    { destruct fuel; simpl; rewrite decide_True by done; eexists; (split; [reflexivity|]);
        (apply calms_hide_children;
         [first [apply calms_Dialog_hide_rec | intros; apply calms_refl]
         | apply children_parents]). }
    destruct Hrec as (X & -> & [(Hshape & _) HX]).
    rewrite Dialog_hide_own_focus.
    destruct HX as [E|(E & _)]; rewrite E; [|done].
    rewrite Ha, (sameShape_find _ _ "input" o Hshape). by rewrite decide_True.
  - intros Hout Hnp.
    destruct (calms_Dialog_hide_rec fuel o s) as [_ [E|(_ & a' & Ha' & Hin)]].
    + by rewrite E.
    + assert (a' = a) as -> by congruence. by destruct Hin.
Qed.



(** ** Undo and redo *)

Lemma shallowClone_id {A} (a : list A) : shallowClone a = a.
Proof. induction a as [|x a IH]; simpl; [done | by rewrite IH]. Qed.

Lemma pop_push {A} (a : list A) (x : A) : pop (push a x) = (Some x, a).
Proof.
  unfold pop, push. rewrite last_snoc, length_app. simpl.
  replace (length a + 1 - 1) with (length a) by lia.
  by rewrite take_app_length.
Qed.

Lemma pop_nonempty {A} (a : list A) :
  a ≠ [] → ∃ (x : A) (rest : list A), a = rest ++ [x] ∧ pop a = (Some x, rest).
Proof.
  intros Hne. induction a as [|y a _] using rev_ind; [done|].
  exists y, a. split; [done|]. apply pop_push.
Qed.

Lemma undos_setButtonStyle i s : undos (Undo_setButtonStyle i s) = undos s.
Proof.
  unfold Undo_setButtonStyle, attr, removeAttr, update.
  destruct s; simpl. repeat case_match; reflexivity.
Qed.

Lemma charts_setButtonStyle i s : charts (Undo_setButtonStyle i s) = charts s.
Proof.
  unfold Undo_setButtonStyle, attr, removeAttr, update.
  destruct s; simpl. repeat case_match; reflexivity.
Qed.

(** What [undo] does to the stacks and to the charts when no drawing is
    in progress and the undo stack ends in [e]. *)
Lemma undo_spec self s e rest :
  undostack (undos s !!! self) = rest ++ [e] →
  filter (λ c, activeDrawing (charts s !!! c) = true) (contexts (undos s !!! self)) = [] →
  let u := undos s !!! self in
  let c := entry_context e in
  undos (Undo_undo self s) !!! self =
    mkUndoData rest
      (redostack u ++ [mkUndoEntry c (drawingObjects (charts s !!! c))])
      (contexts u) (redoButton u) ∧
  charts (Undo_undo self s) =
    <[c := set_drawingObjects (entry_drawings e) (charts s !!! c)]> (charts s).
Proof.
  intros Hstack Hnone u c. unfold Undo_undo.
  rewrite Hnone, Hstack. change (rest ++ [e]) with (push rest e). rewrite pop_push.
  rewrite undos_setButtonStyle, charts_setButtonStyle.
  unfold emit, assignDrawingObjects, updateUndo, push.
  rewrite !shallowClone_id.
  destruct s; simpl in *. rewrite !lookup_total_insert_eq. done.
Qed.

(** What [redo] does when the redo stack ends in [e]. *)
Lemma redo_spec self s e rest :
  redostack (undos s !!! self) = rest ++ [e] →
  let u := undos s !!! self in
  let c := entry_context e in
  undos (Undo_redo self s) !!! self =
    mkUndoData
      (undostack u ++ [mkUndoEntry c (drawingObjects (charts s !!! c))])
      rest (contexts u) (redoButton u) ∧
  charts (Undo_redo self s) =
    <[c := set_drawingObjects (entry_drawings e) (charts s !!! c)]> (charts s).
Proof.
  intros Hstack u c. unfold Undo_redo.
  rewrite Hstack. change (rest ++ [e]) with (push rest e). rewrite pop_push.
  rewrite undos_setButtonStyle, charts_setButtonStyle.
  unfold emit, assignDrawingObjects, updateUndo, push.
  rewrite !shallowClone_id.
  destruct s; simpl in *. rewrite !lookup_total_insert_eq. done.
Qed.

Lemma handleEvent_redostack self c before s :
  redostack (undos (Undo_handleEvent self c before s) !!! self) = [].
Proof.
  unfold Undo_handleEvent. rewrite undos_setButtonStyle.
  unfold updateUndo. destruct s; simpl. by rewrite lookup_total_insert_eq.
Qed.

(** C10.  With a non-empty undo stack and no drawing in progress on any
    managed chart, undo followed by redo gives every chart its drawing
    objects back; undo takes the last entry [e] off the undo stack, puts
    one entry (the chart's current drawings) on the redo stack and
    installs the drawings of [e]; redo takes that entry off again and
    restores the undo stack; and handling an undoStamp event leaves the
    redo stack empty. *)
Theorem undo_redo_roundtrip (self : nat) (s : State) :
  undostack (undos s !!! self) ≠ [] →
  (∀ c, c ∈ contexts (undos s !!! self) → activeDrawing (charts s !!! c) = false) →
  let s1 := Undo_undo self s in
  let s2 := Undo_redo self s1 in
  (∀ c, drawingObjects (charts s2 !!! c) = drawingObjects (charts s !!! c)) ∧
  (∃ e, undostack (undos s !!! self) = undostack (undos s1 !!! self) ++ [e] ∧
        redostack (undos s1 !!! self) =
          redostack (undos s !!! self) ++
            [mkUndoEntry (entry_context e)
               (drawingObjects (charts s !!! entry_context e))] ∧
        drawingObjects (charts s1 !!! entry_context e) = entry_drawings e) ∧
  undostack (undos s2 !!! self) = undostack (undos s !!! self) ∧
  redostack (undos s2 !!! self) = redostack (undos s !!! self) ∧
  (∀ c before s', redostack (undos (Undo_handleEvent self c before s') !!! self) = []).
Proof.
  intros Hne Hidle s1 s2.
  destruct (pop_nonempty _ Hne) as (e & rest & Hstack & Hpop).
  assert (Hnone : filter (λ c, activeDrawing (charts s !!! c) = true)
                    (contexts (undos s !!! self)) = []).
  { induction (contexts (undos s !!! self)) as [|c l IH]; [done|].
    rewrite filter_cons. rewrite decide_False.
    - apply IH. intros c' Hc'. apply Hidle. by right.
    - rewrite Hidle; [done | by left]. }
  destruct (undo_spec self s e rest Hstack Hnone) as [Hu1 Hc1].
  fold s1 in Hu1, Hc1.
  assert (Hredo : redostack (undos s1 !!! self) =
            redostack (undos s !!! self) ++
              [mkUndoEntry (entry_context e)
                 (drawingObjects (charts s !!! entry_context e))]).
  { by rewrite Hu1. }
  destruct (redo_spec self s1 _ _ Hredo) as [Hu2 Hc2]. fold s2 in Hu2, Hc2.
  simpl in Hu2, Hc2.
  assert (Hd1 : drawingObjects (charts s1 !!! entry_context e) = entry_drawings e).
  { rewrite Hc1, lookup_total_insert_eq. by destruct (charts s !!! entry_context e). }
  repeat split.
  - intros c. rewrite Hc2, Hc1.
    destruct (decide (c = entry_context e)) as [->|Hc].
    + rewrite lookup_total_insert_eq. by destruct (<[_:=_]> _ !!! _).
    + by rewrite !lookup_total_insert_ne.
  - exists e. by rewrite Hu1.
  - rewrite Hu2, Hu1. simpl. rewrite Hd1, Hstack. by destruct e.
  - rewrite Hu2. done.
  - apply handleEvent_redostack.
Qed.

Lemma undo_redo_roundtrip_witness :
  undostack (undos undoPage !!! 1) ≠ [] ∧
  (∀ c, c ∈ contexts (undos undoPage !!! 1) →
        activeDrawing (charts undoPage !!! c) = false) ∧
  drawingObjects (charts (Undo_redo 1 (Undo_undo 1 undoPage)) !!! 0) = [7; 8] ∧
  drawingObjects (charts (Undo_undo 1 undoPage) !!! 0) = [7].
Proof.
  assert (H1 : undostack (undos undoPage !!! 1) ≠ []) by (vm_compute; discriminate).
  assert (H2 : ∀ c, c ∈ contexts (undos undoPage !!! 1) →
                    activeDrawing (charts undoPage !!! c) = false).
  { intros c Hc. vm_compute in Hc. apply list_elem_of_singleton in Hc. subst c.
    vm_compute. reflexivity. }
  split; [exact H1|]. split; [exact H2|].
  destruct (undo_redo_roundtrip 1 undoPage H1 H2) as (Hround & (e & _ & _ & _) & _).
  split; [rewrite Hround; vm_compute; reflexivity | vm_compute; reflexivity].
Defined.

(** ** Placement of a dialog *)

(** [stxContextMenu] never leaves [top] negative, whatever the numbers
    are. *)
Lemma contextMenuTop_not_negative (h ch : float) (y : option float) :
  fltb (toNumber (contextMenuTop h ch y)) zero = false.
Proof.
  unfold contextMenuTop. cbv zeta.
  match goal with
  | |- context [if fltb ?t zero then _ else _] => destruct (fltb t zero) eqn:E
  end; [reflexivity | exact E].
Qed.

(** [center] never leaves [left] or [top] negative. *)
Lemma centerLeft_not_negative (w cw : float) : fltb (centerLeft w cw) zero = false.
Proof.
  unfold centerLeft. cbv zeta.
  match goal with
  | |- context [if fltb ?t zero then _ else _] => destruct (fltb t zero) eqn:E
  end; [reflexivity | exact E].
Qed.

Lemma centerTop_not_negative (h ch : float) : fltb (centerTop h ch) zero = false.
Proof.
  unfold centerTop. cbv zeta.
  match goal with
  | |- context [if fltb ?t zero then zero else _] => destruct (fltb t zero) eqn:E
  end; [reflexivity | exact E].
Qed.

(** [stxContextMenu] moves [left] only when the rounded sum [x + cw]
    exceeds [w], and then to [w - cw] without looking at its sign. *)
Lemma contextMenuLeft_cases (w cw : float) (x : option float) :
  (fltb w (fadd (toNumber x) cw) = true ∧ contextMenuLeft w cw x = Some (fsub w cw)) ∨
  (fltb w (fadd (toNumber x) cw) = false ∧ contextMenuLeft w cw x = x).
Proof.
  unfold contextMenuLeft. cbv zeta.
  destruct (fltb w (fadd (toNumber x) cw)); [by left | by right].
Qed.

(** The sum is rounded as a double: at [x = w = 2^53] and [cw = 1] it is
    [2^53], the test fails and [left] stays at [x]. *)
Lemma contextMenuLeft_rounds :
  contextMenuLeft (ofZ (2 ^ 53)) (ofZ 1) (Some (ofZ (2 ^ 53))) = Some (ofZ (2 ^ 53)).
Proof. vm_compute. reflexivity. Qed.

(** What [resize] writes is what [placement] computes. *)
Lemma Dialog_resize_placement self s :
  Dialog_resize self s =
  (λ lt, update self (place lt.1 lt.2) s) <$> placement self s.
Proof.
  unfold Dialog_resize, placement, Dialog_stxContextMenu, Dialog_center.
  destruct (region self s) as [[w h]|]; simpl.
  - destruct (doc s !! self) as [e|]; simpl; [|done].
    destruct (params e) as [p|] eqn:Hp; simpl; [|done].
    by destruct (truthy_x p) eqn:Hx.
  - destruct (doc s !! self ≫= params) as [p|]; [destruct (truthy_x p)|]; done.
Qed.


(** ** Closing an overlay *)

(** C5, as the code has it.  When the [hide] of an overlay goes through
    (an open menu, or a dialog without an invalid field inside, on a page
    on which no colour picker that a swatch refers to holds a study
    dialog, so that the calls of [hide] end), the overlay ends inactive
    and a focused input inside it loses the focus.
    A focus outside a menu stays where it is; a focus outside a dialog
    stays where it is unless it sits inside a colour picker that a swatch
    has launched (the [hide] of a dialog runs the [hide] of its children,
    and a study dialog among them closes the colour picker its swatches
    launched, wherever that picker stands).  A menu that is not open and a dialog with an invalid
    field inside are left exactly as they are. *)
Theorem hide_blurs_inside (o : nat) (s : State) :
  isOverlay (doc s) o →
  ((tagOf (doc s) o = "cq-menu" ∧ isActive (doc s) o = true) ∨
   (tagOf (doc s) o = "cq-dialog" ∧ findInvalid (doc s) o = [] ∧
    pickersPlain (doc s)) →
     isActive (doc (hide o s)) o = false ∧
     (∀ a, activeElement s = Some a → a ∈ find (doc s) "input" o →
           activeElement (hide o s) = None) ∧
     (∀ a, activeElement s = Some a → a ∉ descendants (doc s) o →
           (tagOf (doc s) o = "cq-menu" ∨ ¬ insidePicker (doc s) a) →
           activeElement (hide o s) = Some a)) ∧
  ((tagOf (doc s) o = "cq-menu" ∧ isActive (doc s) o = false) ∨
   (tagOf (doc s) o = "cq-dialog" ∧ findInvalid (doc s) o ≠ []) →
     hide o s = s).
Proof.
  intros _. split.
  - intros [[Hm Hact]|(Hd & Hvalid & _)].
    + split; [apply hide_inactive; by left|].
      unfold hide. rewrite decide_True by done.
      assert (Hfocus : ∀ a, activeElement s = Some a →
                activeElement (Menu_hide o s) =
                if decide (a ∈ find (doc s) "input" o) then None else Some a).
      { intros a Ha. unfold Menu_hide. rewrite Hact. simpl.
        rewrite activeElement_blurInputsInside. unfold removeClass.
        rewrite !activeElement_update, Ha.
        assert (Hshape : sameShape
                  (doc (update o (set_active false)
                          (update o (λ e, set_classList
                                            (remove_name "stxMenuActive" (classList e)) e) s)))
                  (doc s)).
        { etrans; apply sameShape_update; intros e; by destruct e. }
        by rewrite (sameShape_find _ _ "input" o Hshape). }
      split; [intros a Ha Hin | intros a Ha Hin _]; rewrite (Hfocus a Ha).
      * by rewrite decide_True.
      * rewrite decide_False; [done|]. intros Hf. by apply Hin, (find_descendants _ "input").
    + split; [apply hide_inactive; by right|].
      unfold hide. rewrite decide_False by (rewrite Hd; done).
      rewrite decide_True by done. unfold Dialog_hide.
      split; [intros a Ha Hin | intros a Ha Hin [Hm|Hnp]].
      * by apply (Dialog_hide_rec_focus (2 * length (doc s)) o s a Hvalid Ha).
      * rewrite Hd in Hm. discriminate Hm.
      * by apply (Dialog_hide_rec_focus (2 * length (doc s)) o s a Hvalid Ha).
  - intros [[Hm Hact]|[Hd Hinvalid]]; unfold hide.
    + rewrite decide_True by done. unfold Menu_hide. by rewrite Hact.
    + rewrite decide_False by (rewrite Hd; done). rewrite decide_True by done.
      by apply Dialog_hide_rec_invalid.
Qed.

Lemma hide_blurs_inside_witness :
  isOverlay (doc (menuInputPage (Some 2))) 1 ∧
  isActive (doc (hide 1 (menuInputPage (Some 2)))) 1 = false ∧
  activeElement (hide 1 (menuInputPage (Some 2))) = None ∧
  activeElement (hide 1 (menuInputPage (Some 3))) = Some 3 ∧
  isActive (doc (hide 1 (studyDialogPage (Some 6)))) 1 = false ∧
  activeElement (hide 1 (studyDialogPage (Some 6))) = Some 6 ∧
  hide 1 invalidDialogPage = invalidDialogPage.
Proof.
  assert (Ho : ∀ f, isOverlay (doc (menuInputPage f)) 1).
  { intros f. unfold isOverlay. by left. }
  assert (Hopen : ∀ f, tagOf (doc (menuInputPage f)) 1 = "cq-menu" ∧
                       isActive (doc (menuInputPage f)) 1 = true) by done.
  split; [apply Ho|].
  destruct (hide_blurs_inside 1 (menuInputPage (Some 2)) (Ho _)) as [Hin _].
  destruct (Hin (or_introl (Hopen _))) as (Hoff & Hblur & _).
  split; [exact Hoff|]. split.
  { apply (Hblur 2); [reflexivity|]. vm_compute. by left. }
  destruct (hide_blurs_inside 1 (menuInputPage (Some 3)) (Ho _)) as [Hin3 _].
  destruct (Hin3 (or_introl (Hopen _))) as (_ & _ & Hkeep).
  split.
  { apply (Hkeep 3); [reflexivity | | by left].
    assert (descendants (doc (menuInputPage (Some 3))) 1 = [2]) as -> by reflexivity.
    intros Hmem. apply list_elem_of_singleton in Hmem. discriminate Hmem. }
  assert (Hos : isOverlay (doc (studyDialogPage (Some 6))) 1).
  { unfold isOverlay. right. by left. }
  destruct (hide_blurs_inside 1 (studyDialogPage (Some 6)) Hos) as [Hin6 _].
  destruct Hin6 as (Hoff6 & _ & Hkeep6).
  { right. split; [reflexivity|]. split; [reflexivity|].
    apply pickersPlain_check. by_decide. }
  split; [exact Hoff6|]. split.
  { apply (Hkeep6 6); [reflexivity | |].
    - assert (descendants (doc (studyDialogPage (Some 6))) 1 = [2; 3]) as -> by reflexivity.
      intros Hmem. apply elem_of_cons in Hmem as [Hmem|Hmem]; [discriminate Hmem|].
      apply list_elem_of_singleton in Hmem. discriminate Hmem.
    - right. intros (w & p & _ & Hp & Hmem).
      apply elem_of_descendants in Hmem as [Hmem _].
      assert (parents (doc (studyDialogPage (Some 6))) 6 = [0]) as Hpar by reflexivity.
      rewrite Hpar in Hmem. apply list_elem_of_singleton in Hmem. subst p.
      discriminate Hp. }
  assert (Hod : isOverlay (doc invalidDialogPage) 1).
  { unfold isOverlay. right. by left. }
  destruct (hide_blurs_inside 1 invalidDialogPage Hod) as [_ Hveto].
  apply Hveto. right. split; [reflexivity|]. vm_compute. discriminate.
Defined.

(** C5 fails as stated, in two ways.  Closing a dialog that holds an
    invalid field leaves it active and leaves the focus on the field
    inside it.  Closing a dialog that holds a study dialog takes the focus
    from an input that stands outside the dialog, inside the colour picker
    a swatch of the study dialog launched. *)
Lemma hide_blurs_inside_counterexample :
  (isOverlay (doc invalidDialogPage) 1 ∧
   activeElement invalidDialogPage = Some 2 ∧
   2 ∈ find (doc invalidDialogPage) "input" 1 ∧
   isActive (doc (hide 1 invalidDialogPage)) 1 = true ∧
   activeElement (hide 1 invalidDialogPage) = Some 2) ∧
  (isOverlay (doc (studyDialogPage (Some 5))) 1 ∧
   activeElement (studyDialogPage (Some 5)) = Some 5 ∧
   (5 ∉ descendants (doc (studyDialogPage (Some 5))) 1) ∧
   isActive (doc (hide 1 (studyDialogPage (Some 5)))) 1 = false ∧
   activeElement (hide 1 (studyDialogPage (Some 5))) = None).
Proof.
  split.
  - split; [right; by left|]. split; [reflexivity|].
    split; [vm_compute; by left|]. split; reflexivity.
  - split; [right; by left|]. split; [reflexivity|].
    split; [|split; reflexivity].
    assert (descendants (doc (studyDialogPage (Some 5))) 1 = [2; 3]) as -> by reflexivity.
    intros Hmem. apply elem_of_cons in Hmem as [Hmem|Hmem]; [discriminate Hmem|].
    apply list_elem_of_singleton in Hmem. discriminate Hmem.
Qed.

(** ** Opening a menu by a tap *)






(** ** Taps *)











Lemma length_filter_zero {A} (P : A → Prop) `{!∀ x, Decision (P x)} (l : list A) :
  length (filter P l) = 0 ↔ ∀ x, x ∈ l → ¬ P x.
Proof.
  rewrite length_zero_iff_nil. split.
  - intros Hnil x Hx HP. by apply (filter_nil_not_elem_of P l x).
  - intros Hall. induction l as [|x l IH]; [done|].
    rewrite filter_cons, decide_False by (apply Hall; by left).
    apply IH. intros y Hy. apply Hall. by right.
Qed.






















(** ** Keystrokes *)

(** What [Scroll.prototype.keyStroke] does on a visible scroller that
    holds no item. *)
Lemma Scroll_keyStroke_no_items self key s :
  visible self s = true → find (doc s) "cq-item" self = [] →
  Scroll_keyStroke self key s =
  if bool_decide (key = KeyName "up" ∨ key = KeyName "down") then (s, Thrown)
  else (s, Returned RFalse).
Proof.
  intros Hvis Hnone. unfold Scroll_keyStroke. unfold visible in Hvis.
  rewrite Hvis, Hnone. simpl.
  destruct (decide (key = KeyName "up")) as [->|Hup]; [done|].
  destruct (decide (key = KeyName "down")) as [->|Hdown]; [done|].
  rewrite (bool_decide_eq_false_2 (key = KeyName "up" ∨ _)) by (by intros [?|?]).
  destruct (bool_decide (key ∈ _)) eqn:Hkey; simpl; [|done].
  rewrite bool_decide_eq_true_2; [done|].
  apply bool_decide_eq_true in Hkey.
  repeat (apply elem_of_cons in Hkey as [Hkey|Hkey]; [by auto|]).
  by apply elem_of_nil in Hkey.
Qed.

(** C9.  The code does not do what the claim says: on a visible scroller
    without items the arrow keys end in a [TypeError], raised by
    [scrollToElement(items[0])] reading [offsetTop] of [undefined]. *)
Theorem scroll_keyStroke_empty_throws :
  visible 1 emptyScrollPage = true ∧
  find (doc emptyScrollPage) "cq-item" 1 = [] ∧
  Scroll_keyStroke 1 (KeyName "down") emptyScrollPage = (emptyScrollPage, Thrown) ∧
  Scroll_keyStroke 1 (KeyName "up") emptyScrollPage = (emptyScrollPage, Thrown) ∧
  routeKeyStroke (KeyName "down") (mkKeystroke false false false) emptyScrollPage =
    (emptyScrollPage, [(1, Thrown)]).
Proof. repeat split; reflexivity. Qed.

Ltac key_decide :=
  repeat match goal with
  | |- context [bool_decide ?P] =>
      first [ rewrite (bool_decide_eq_true_2 P) by (first [done | by left | by right])
            | rewrite (bool_decide_eq_false_2 P)
                by (first [intros [?|?]; congruence | congruence]) ]
  end.

Lemma Scroll_keyStroke_unhandled c key s r :
  (Scroll_keyStroke c key s).2 = Returned r → truthy r = false →
  (Scroll_keyStroke c key s).1 = s.
Proof.
  unfold Scroll_keyStroke.
  repeat (case_match; simpl; try done); intros [= <-]; done.
Qed.

Lemma Undo_keyStroke_unhandled c key ks s r :
  (Undo_keyStroke c key ks s).2 = Returned r → truthy r = false →
  (Undo_keyStroke c key ks s).1 = s.
Proof.
  unfold Undo_keyStroke.
  repeat (case_match; simpl; try done); intros [= <-]; done.
Qed.

Lemma Lookup_keyStroke_unhandled c key ks s r :
  (Lookup_keyStroke c key ks s).2 = Returned r → truthy r = false →
  (Lookup_keyStroke c key ks s).1 = s.
Proof.
  unfold Lookup_keyStroke.
  destruct (ctrl ks || bool_decide (key = KeyCode 91)); [done|].
  cbv zeta.
  destruct (negb _ && _); [done|].
  destruct (negb _ && negb _); [done|].
  destruct (negb _ && negb _ && _); [done|].
  destruct (bool_decide (key = KeyCode 32) && _); [done|].
  destruct key as [n|name].
  - rewrite !(bool_decide_eq_false_2 (KeyCode n = KeyName _ ∨ _)) by (intros [?|?]; done).
    rewrite !(bool_decide_eq_false_2 (KeyCode n = KeyName _)) by done.
    simpl. destruct (bool_decide (32 ≤ n ≤ 222)); simpl.
    + intros [= <-]. by destruct (bool_decide _).
    + done.
  - assert (Hcases : name = "delete" ∨ name = "backspace" ∨ name = "escape" ∨
                     name = "enter" ∨
                     (name ≠ "delete" ∧ name ≠ "backspace" ∧ name ≠ "escape" ∧
                      name ≠ "enter")).
    { destruct (decide (name = "delete")); [by left|].
      destruct (decide (name = "backspace")); [right; by left|].
      destruct (decide (name = "escape")); [right; right; by left|].
      destruct (decide (name = "enter")); [right; right; right; by left|].
      right. right. right. right. done. }
    destruct Hcases as [->|[->|[->|[->|(H1 & H2 & H3 & H4)]]]]; key_decide; simpl;
      repeat (case_match; simpl in *; simplify_eq; try done);
      try (intros [= <-]; done).
Qed.

(** A claimant that returns without handling leaves the state as it was. *)
Lemma keyStroke_unhandled c key ks s r :
  (keyStroke c key ks s).2 = Returned r → truthy r = false →
  (keyStroke c key ks s).1 = s.
Proof.
  unfold keyStroke. cbv zeta. repeat case_decide.
  - apply Scroll_keyStroke_unhandled.
  - apply Lookup_keyStroke_unhandled.
  - apply Undo_keyStroke_unhandled.
  - done.
Qed.

Lemma deliver_spec cs key ks s :
  (fst <$> (deliver cs key ks s).2) `prefix_of` cs ∧
  (∀ i c o, (deliver cs key ks s).2 !! i = Some (c, o) → handled o = true →
            S i = length (deliver cs key ks s).2) ∧
  (∀ c o, (c, o) ∈ (deliver cs key ks s).2 → (keyStroke c key ks s).2 = o) ∧
  (deliver cs key ks s).1 =
    match last (deliver cs key ks s).2 with
    | Some (c, _) => (keyStroke c key ks s).1
    | None => s
    end.
Proof.
  induction cs as [|c cs IH]; simpl.
  - split; [done|]. split; [intros i c o Hi; by destruct i|].
    split; [|done]. intros c o Hin. by apply elem_of_nil in Hin.
  - destruct (keyStroke c key ks s) as [s1 o] eqn:Hk.
    assert (Hone : (fst <$> [(c, o)]) `prefix_of` c :: cs ∧
              (∀ i c' o', [(c, o)] !! i = Some (c', o') → handled o' = true → S i = 1) ∧
              (∀ c' o', (c', o') ∈ [(c, o)] → (keyStroke c' key ks s).2 = o') ∧
              s1 = (keyStroke c key ks s).1).
    { split; [apply prefix_cons, prefix_nil|].
      split; [intros i c' o' Hi _; by destruct i as [|[|i]]|].
      split; [|by rewrite Hk].
      intros c' o' [= -> ->]%list_elem_of_singleton. by rewrite Hk. }
    destruct o as [r|]; [|exact Hone].
    destruct (truthy r) eqn:Hr; [exact Hone|].
    assert (s1 = s) as ->.
    { pose proof (keyStroke_unhandled c key ks s r) as Hsame. rewrite Hk in Hsame.
      by apply Hsame. }
    destruct (deliver cs key ks s) as [s2 t]. simpl in *.
    destruct IH as (Hpre & Hlast & Hout & Hfinal).
    split; [by apply prefix_cons|]. split; [|split].
    + intros [|i] c' o' Hi Hh; simpl in *.
      * injection Hi as <- <-. simpl in Hh. congruence.
      * f_equal. by eapply Hlast.
    + intros c' o' [[= -> ->]|Hin]%elem_of_cons; [by rewrite Hk | by apply Hout].
    + rewrite Hfinal. destruct t as [|[c' o'] t]; simpl; [by rewrite Hk | done].
Qed.

(** C2.  A routed keystroke is offered to the claimants in registration
    order; whoever returns handled is the last one consulted, so no two
    claimants handle the same keystroke; the claimants consulted before it
    left the state untouched, so the state after routing is the one the
    last consulted claimant produced from the state before. *)
Theorem routeKeyStroke_single_handler (key : Key) (ks : Keystroke) (s : State) :
  let trace := (routeKeyStroke key ks s).2 in
  (fst <$> trace) `prefix_of` claims s ∧
  (∀ i c o, trace !! i = Some (c, o) → handled o = true → S i = length trace) ∧
  (∀ i j c c' o o', trace !! i = Some (c, o) → trace !! j = Some (c', o') →
                    handled o = true → handled o' = true → i = j) ∧
  length (filter (λ co, handled co.2 = true) trace) ≤ 1 ∧
  (∀ c o, (c, o) ∈ trace → (keyStroke c key ks s).2 = o) ∧
  (routeKeyStroke key ks s).1 =
    match last trace with
    | Some (c, _) => (keyStroke c key ks s).1
    | None => s
    end.
Proof.
  destruct (deliver_spec (claims s) key ks s) as (Hpre & Hlast & Hout & Hfinal).
  unfold routeKeyStroke. cbv zeta in *.
  set (trace := (deliver (claims s) key ks s).2) in *.
  split; [exact Hpre|]. split; [exact Hlast|].
  assert (Huniq : ∀ i j c c' o o', trace !! i = Some (c, o) → trace !! j = Some (c', o') →
                    handled o = true → handled o' = true → i = j).
  { intros i j c c' o o' Hi Hj Ho Ho'.
    pose proof (Hlast i c o Hi Ho). pose proof (Hlast j c' o' Hj Ho'). lia. }
  split; [exact Huniq|]. split; [|split; [exact Hout | exact Hfinal]].
  clearbody trace. clear Hpre Hout Hfinal.
  induction trace as [|[c o] t IH] using rev_ind; [simpl; lia|].
  rewrite filter_app, length_app.
  assert (Hnone : filter (λ co : nat * Outcome, handled co.2 = true) t = []).
  { apply length_zero_iff_nil, length_filter_zero. intros [c' o'] Hin Hh. simpl in Hh.
    apply list_elem_of_lookup in Hin as [i Hi].
    assert (Hi' : (t ++ [(c, o)]) !! i = Some (c', o')) by (by apply lookup_app_l_Some).
    pose proof (Hlast i c' o' Hi' Hh) as Hlen. rewrite length_app in Hlen. simpl in Hlen.
    apply lookup_lt_Some in Hi. lia. }
  rewrite Hnone. simpl. rewrite filter_cons, filter_nil. case_decide; simpl; lia.
Qed.

Lemma routeKeyStroke_single_handler_witness :
  let ks := mkKeystroke false false false in
  (routeKeyStroke (KeyName "down") ks claimsPage).2 =
    [(1, Returned RUndefined); (3, Returned RTrue)] ∧
  S 1 = length (routeKeyStroke (KeyName "down") ks claimsPage).2 ∧
  (routeKeyStroke (KeyName "down") ks claimsPage).1 =
    (keyStroke 3 (KeyName "down") ks claimsPage).1.
Proof.
  intros ks.
  destruct (routeKeyStroke_single_handler (KeyName "down") ks claimsPage)
    as (_ & Hlast & _ & _ & _ & Hfinal).
  split; [reflexivity|]. split.
  - apply (Hlast 1 3 (Returned RTrue)); reflexivity.
  - rewrite Hfinal. reflexivity.
Defined.

(** A lookup that is neither focused, nor shown, nor the default target
    with no overlay open, returns at once. *)
Lemma Lookup_keyStroke_not_eligible c key ks s :
  inputFocused c s = false → menuChainActive c s = false →
  (defaultClaim c s = false ∨ is_Some (topMenu s)) →
  ∃ r, Lookup_keyStroke c key ks s = (s, Returned r) ∧ truthy r = false.
Proof.
  unfold inputFocused, menuChainActive, defaultClaim. intros Hfocus Hchain Hdefault.
  unfold Lookup_keyStroke.
  destruct (ctrl ks || bool_decide (key = KeyCode 91)); [by exists RFalse|].
  cbv zeta. rewrite Hfocus, Hchain. simpl.
  destruct (match activeElement s with
            | Some a => bool_decide (tagOf (doc s) a ∈ ["input"; "textarea"])
            | None => false
            end); [by exists RFalse|].
  destruct Hdefault as [Hno|Htop].
  - rewrite Hno. simpl. by exists RUndefined.
  - destruct (hasAttrb (doc s) "cq-keystroke-default" c); simpl; [|by exists RUndefined].
    rewrite bool_decide_eq_true_2 by done. by exists RUndefined.
Qed.

Lemma Lookup_keyStroke_modifier c key ks s :
  ctrl ks = true ∨ key = KeyCode 91 → Lookup_keyStroke c key ks s = (s, Returned RFalse).
Proof.
  intros H. unfold Lookup_keyStroke.
  assert (ctrl ks || bool_decide (key = KeyCode 91) = true) as ->; [|done].
  destruct H as [->| ->]; [done|]. apply orb_true_r.
Qed.

Lemma Scroll_keyStroke_hidden c key s :
  visible c s = false → Scroll_keyStroke c key s = (s, Returned RFalse).
Proof. unfold visible, Scroll_keyStroke. by intros ->. Qed.

Lemma Scroll_keyStroke_other_key c key s :
  key ∉ [KeyName "up"; KeyName "down"; KeyName "enter"; KeyCode 32] →
  Scroll_keyStroke c key s = (s, Returned RFalse).
Proof.
  intros Hkey. unfold Scroll_keyStroke.
  destruct (negb (from_option trulyvisible false (doc s !! c))); [done|].
  by rewrite bool_decide_eq_false_2.
Qed.

Lemma Undo_keyStroke_handled c key ks s :
  handled (Undo_keyStroke c key ks s).2 = true ↔
  (key = KeyCode 90 ∨ key = KeyCode 89) ∧ ctrl ks || cmd ks = true.
Proof.
  unfold Undo_keyStroke.
  destruct (decide (key = KeyCode 90)) as [->|H90].
  - rewrite bool_decide_eq_true_2 by done. simpl.
    destruct (ctrl ks || cmd ks) eqn:Hmod; simpl.
    + destruct (shift ks); simpl; split; auto.
    + split; [done | by intros [_ ?]].
  - rewrite (bool_decide_eq_false_2 (key = KeyCode 90)) by done. simpl.
    destruct (decide (key = KeyCode 89)) as [->|H89].
    + rewrite bool_decide_eq_true_2 by done. simpl.
      destruct (ctrl ks || cmd ks); simpl; split; auto. by intros [_ ?].
    + rewrite (bool_decide_eq_false_2 (key = KeyCode 89)) by done. simpl.
      split; [done | by intros [[?|?] _]].
Qed.

(** C3, as the code has it.  A lookup handles a keystroke only when ctrl
    is not held, the key is not 91, and its input is focused, or a class of
    an open menu is on its chain, or it is the default target and no
    overlay is topmost; in every other case it returns without handling and
    without touching the state.  It never asks whether it is visible.  A
    scroller handles a keystroke only when it is visible and the key is
    up, down, enter or space; otherwise it returns false and leaves the
    state as it is.  It asks for nothing else.  The undo button handles
    exactly ctrl/cmd-Z and ctrl/cmd-Y, whatever is visible or focused. *)
Theorem keyStroke_eligibility (c : nat) (key : Key) (ks : Keystroke) (s : State) :
  (handled (Lookup_keyStroke c key ks s).2 = true →
     ctrl ks = false ∧ key ≠ KeyCode 91 ∧
     (inputFocused c s = true ∨ menuChainActive c s = true ∨
      (defaultClaim c s = true ∧ topMenu s = None))) ∧
  (ctrl ks = true ∨ key = KeyCode 91 ∨
   (inputFocused c s = false ∧ menuChainActive c s = false ∧
    (defaultClaim c s = false ∨ is_Some (topMenu s))) →
     ∃ r, Lookup_keyStroke c key ks s = (s, Returned r) ∧ truthy r = false) ∧
  (handled (Scroll_keyStroke c key s).2 = true →
     visible c s = true ∧
     key ∈ [KeyName "up"; KeyName "down"; KeyName "enter"; KeyCode 32]) ∧
  (visible c s = false ∨
   key ∉ [KeyName "up"; KeyName "down"; KeyName "enter"; KeyCode 32] →
     Scroll_keyStroke c key s = (s, Returned RFalse)) ∧
  (handled (Undo_keyStroke c key ks s).2 = true ↔
     (key = KeyCode 90 ∨ key = KeyCode 89) ∧ ctrl ks || cmd ks = true).
Proof.
  assert (Hlookup : ctrl ks = true ∨ key = KeyCode 91 ∨
            (inputFocused c s = false ∧ menuChainActive c s = false ∧
             (defaultClaim c s = false ∨ is_Some (topMenu s))) →
            ∃ r, Lookup_keyStroke c key ks s = (s, Returned r) ∧ truthy r = false).
  { intros [H|[H|(H1 & H2 & H3)]].
    - exists RFalse. split; [apply Lookup_keyStroke_modifier; by left | done].
    - exists RFalse. split; [apply Lookup_keyStroke_modifier; by right | done].
    - by apply Lookup_keyStroke_not_eligible. }
  assert (Hscroll : visible c s = false ∨
            key ∉ [KeyName "up"; KeyName "down"; KeyName "enter"; KeyCode 32] →
            Scroll_keyStroke c key s = (s, Returned RFalse)).
  { intros [H|H]; [by apply Scroll_keyStroke_hidden | by apply Scroll_keyStroke_other_key]. }
  split; [|split; [exact Hlookup|split; [|split; [exact Hscroll|]]]];
    [| |apply Undo_keyStroke_handled].
  - intros Hh.
    assert (Hnot : ∀ P, (P → ∃ r, Lookup_keyStroke c key ks s = (s, Returned r) ∧
                                  truthy r = false) → ¬ P).
    { intros P HP HPp. destruct (HP HPp) as (r & Hr & Hf). rewrite Hr in Hh. simpl in Hh.
      congruence. }
    split; [|split].
    + destruct (ctrl ks) eqn:E; [|done]. exfalso.
      apply (Hnot _ Hlookup). by left.
    + intros ->. apply (Hnot _ Hlookup). right. by left.
    + destruct (inputFocused c s) eqn:E1; [by left|].
      destruct (menuChainActive c s) eqn:E2; [right; by left|].
      right. right. destruct (defaultClaim c s) eqn:E3.
      * split; [done|]. destruct (topMenu s) eqn:E4; [|done]. exfalso.
        apply (Hnot _ Hlookup). right. right. repeat split; try done. right. by eexists.
      * exfalso. apply (Hnot _ Hlookup). right. right. repeat split; try done. by left.
  - intros Hh.
    assert (Hnot : ∀ P, (P → Scroll_keyStroke c key s = (s, Returned RFalse)) → ¬ P).
    { intros P HP HPp. rewrite (HP HPp) in Hh. done. }
    split.
    + destruct (visible c s) eqn:E; [done|]. exfalso. apply (Hnot _ Hscroll). by left.
    + destruct (decide (key ∈ [KeyName "up"; KeyName "down"; KeyName "enter"; KeyCode 32]));
        [done|]. exfalso. apply (Hnot _ Hscroll). by right.
Qed.

Lemma keyStroke_eligibility_witness :
  handled (Lookup_keyStroke 1 (KeyCode 65) (mkKeystroke false false false)
             hiddenLookupPage).2 = true ∧
  defaultClaim 1 hiddenLookupPage = true ∧ topMenu hiddenLookupPage = None ∧
  handled (Lookup_keyStroke 1 (KeyCode 65) (mkKeystroke true false false)
             hiddenLookupPage).2 = false ∧
  handled (Scroll_keyStroke 1 (KeyName "down") scrollPage).2 = true ∧
  visible 1 scrollPage = true ∧
  Scroll_keyStroke 1 (KeyCode 65) scrollPage = (scrollPage, Returned RFalse).
Proof.
  set (plainKey := mkKeystroke false false false).
  assert (Hh : handled (Lookup_keyStroke 1 (KeyCode 65) plainKey hiddenLookupPage).2 = true)
    by reflexivity.
  destruct (keyStroke_eligibility 1 (KeyCode 65) plainKey hiddenLookupPage)
    as (Hlookup & _ & _ & _ & _).
  destruct (Hlookup Hh) as (_ & _ & [Hf|[Hm|[Hd Ht]]]); [discriminate Hf | discriminate Hm |].
  split; [exact Hh|]. split; [exact Hd|]. split; [exact Ht|].
  destruct (keyStroke_eligibility 1 (KeyCode 65) (mkKeystroke true false false)
              hiddenLookupPage) as (_ & Hreturn & _ & _ & _).
  destruct Hreturn as (r & Hr & Hfalse); [by left|].
  split; [rewrite Hr; exact Hfalse|].
  assert (Hs : handled (Scroll_keyStroke 1 (KeyName "down") scrollPage).2 = true)
    by reflexivity.
  destruct (keyStroke_eligibility 1 (KeyName "down") plainKey scrollPage)
    as (_ & _ & Hscroll & _ & _).
  destruct (Hscroll Hs) as [Hvis _].
  split; [exact Hs|]. split; [exact Hvis|].
  destruct (keyStroke_eligibility 1 (KeyCode 65) plainKey scrollPage)
    as (_ & _ & _ & Hoff & _).
  apply Hoff. right. by_decide.
Defined.

(** C3 fails as stated: a visible scroller outside any menu, with no
    input and no default claim, handles the down arrow and marks an item;
    and a lookup that is not visible handles a letter when it is the
    default target. *)
Lemma keyStroke_eligibility_counterexample :
  (visible 1 scrollPage = true ∧
   inputFocused 1 scrollPage = false ∧ menuChainActive 1 scrollPage = false ∧
   defaultClaim 1 scrollPage = false ∧
   handled (keyStroke 1 (KeyName "down") (mkKeystroke false false false) scrollPage).2 = true ∧
   hasAttrb (doc (keyStroke 1 (KeyName "down") (mkKeystroke false false false)
                    scrollPage).1) "cq-focused" 2 = true) ∧
  (visible 1 hiddenLookupPage = false ∧
   handled (keyStroke 1 (KeyCode 65) (mkKeystroke false false false)
              hiddenLookupPage).2 = true ∧
   valueOf 2 (keyStroke 1 (KeyCode 65) (mkKeystroke false false false)
                hiddenLookupPage).1 = "A").
Proof. repeat split; reflexivity. Qed.

(** ** Opening an overlay that is already open *)

Lemma add_name_present n l : n ∈ l → add_name n l = l.
Proof. intros H. unfold add_name. by rewrite decide_True. Qed.

Lemma attr_present n i s e :
  doc s !! i = Some e → n ∈ attributes e → attr n i s = s.
Proof.
  intros He Hin. apply update_id. intros e' He'. simplify_eq.
  rewrite add_name_present by done. by destruct e.
Qed.

Lemma attr_all_present i s e l :
  doc s !! i = Some e → (∀ a, a ∈ l → a ∈ attributes e) →
  foldl (λ s a, attr a i s) s l = s.
Proof.
  intros He. induction l as [|a l IH]; intros Hl; simpl; [done|].
  rewrite (attr_present a i s e) by (try done; apply Hl; by left).
  apply IH. intros a' Ha'. apply Hl. by right.
Qed.

Lemma set_timers_nil s t : timers s = [] → set_timers [] (set_timers t s) = s.
Proof. destruct s; simpl. by intros ->. Qed.

Lemma overlay_set_timers t s : overlay (set_timers t s) = overlay s.
Proof. frame. Qed.
Lemma timers_set_timers t s : timers (set_timers t s) = t.
Proof. frame. Qed.

Lemma update_ext i f g s : (∀ e, f e = g e) → update i f s = update i g s.
Proof. intros H. unfold update. f_equal. by apply list_alter_ext. Qed.

Lemma sameGeometry_refl s : sameGeometry s s.
Proof. by split. Qed.

Lemma sameGeometry_trans s1 s2 s3 :
  sameGeometry s1 s2 → sameGeometry s2 s3 → sameGeometry s1 s3.
Proof. intros (H1 & H2 & H3) (H4 & H5 & H6). repeat split; congruence. Qed.

Lemma sameGeometry_sameShape s' s : sameGeometry s' s → sameShape (doc s') (doc s).
Proof.
  intros [H _]. unfold sameShape. apply list_eq. intros i.
  assert (Hi : geometryOf <$> doc s' !! i = geometryOf <$> doc s !! i)
    by (by rewrite <- !list_lookup_fmap, H).
  rewrite !list_lookup_fmap.
  destruct (doc s' !! i) as [e'|], (doc s !! i) as [e|]; simpl in *; try done.
  unfold geometryOf in Hi. assert (shapeOf e' = shapeOf e) as -> by congruence. done.
Qed.

Lemma windowWidth_update i f s : windowWidth (update i f s) = windowWidth s.
Proof. frame. Qed.
Lemma windowHeight_update i f s : windowHeight (update i f s) = windowHeight s.
Proof. frame. Qed.

Lemma sameGeometry_update i f s :
  (∀ e, geometryOf (f e) = geometryOf e) → sameGeometry (update i f s) s.
Proof.
  intros Hf. split; [|by rewrite windowWidth_update, windowHeight_update].
  rewrite doc_update. apply list_eq. intros j. rewrite !list_lookup_fmap.
  destruct (decide (i = j)) as [<-|Hne].
  - rewrite list_lookup_alter_eq. destruct (doc s !! i); simpl; [by rewrite Hf | done].
  - by rewrite list_lookup_alter_ne.
Qed.

Lemma placement_sameGeometry self s' s :
  sameGeometry s' s → placement self s' = placement self s.
Proof.
  intros Hg. pose proof (sameGeometry_sameShape _ _ Hg) as Hshape.
  destruct Hg as (Hd & Hw & Hh).
  assert (Hi : ∀ i, geometryOf <$> doc s' !! i = geometryOf <$> doc s !! i)
    by (intros i; by rewrite <- !list_lookup_fmap, Hd).
  unfold placement, region, parent. rewrite (sameShape_parents _ _ self Hshape), Hw, Hh.
  destruct (head (parents (doc s) self)) as [q|]; simpl; [|done].
  pose proof (Hi q) as Hq.
  destruct (doc s' !! q) as [eq'|], (doc s !! q) as [eq|]; simpl in *; try done.
  unfold geometryOf, shapeOf in Hq.
  assert (Htag : tagName eq' = tagName eq) by congruence.
  assert (Hgw : guaranteedWidth eq' = guaranteedWidth eq) by congruence.
  assert (Hgh : guaranteedHeight eq' = guaranteedHeight eq) by congruence.
  pose proof (Hi self) as Hself.
  rewrite Htag, Hgw, Hgh.
  destruct (doc s' !! self) as [e'|], (doc s !! self) as [e|]; simpl in *;
    try done; [|by case_decide..].
  unfold geometryOf in Hself.
  assert (Hp : params e' = params e) by congruence.
  assert (How : outerWidth e' = outerWidth e) by congruence.
  assert (Hoh : outerHeight e' = outerHeight e) by congruence.
  by rewrite Hp, How, Hoh.
Qed.

Lemma Dialog_show_settled self p s :
  settled self p s → runTimers (Dialog_show self (Some p) s) = s.
Proof.
  intros (Htimers & (e & He & Hp & Hcq & Hattrs & Hplace) & Hscrim).
  assert (Hshow : Dialog_show self (Some p) s = set_timers [DialogShowTimer self p] s).
  { unfold Dialog_show. simpl.
    rewrite (update_id self (set_params (Some p)) s)
      by (intros e' He'; simplify_eq; destruct e; simpl in *; by subst).
    destruct (overlay s) as [o|] eqn:Ho; [by rewrite Htimers|].
    destruct (bypassOverlay p) eqn:Hb; [by rewrite Htimers|].
    destruct (Hscrim eq_refl) as (o & Ho' & _). congruence. }
  rewrite Hshow. unfold runTimers. rewrite timers_set_timers. simpl.
  rewrite (set_timers_nil s _ Htimers).
  unfold Dialog_show_timer.
  assert (Hs1 : match overlay s with
                | Some o => if bypassOverlay p then s else attr "cq-active" o s
                | None => s
                end = s).
  { destruct (overlay s) as [o|] eqn:Ho; [|done].
    destruct (bypassOverlay p) eqn:Hb; [done|].
    destruct (Hscrim eq_refl) as (o' & Ho' & Hin). simplify_eq.
    apply update_id. intros eo Heo. rewrite add_name_present by (by apply Hin).
    by destruct eo. }
  rewrite Hs1.
  rewrite (update_id self _ s).
  2:{ intros e' He'. simplify_eq. rewrite add_name_present by done. by destruct e. }
  rewrite He. simpl.
  rewrite (attr_all_present self s e) by done.
  rewrite Dialog_resize_placement.
  destruct (placement self s) as [[l t]|] eqn:Hpl; simpl; [|done].
  destruct (Hplace l t eq_refl) as [Hact Hpos].
  rewrite (update_id self (place l t) s) by (intros e' He'; by simplify_eq).
  apply update_id. intros e' He'. simplify_eq. destruct e; simpl in *. by subst.
Qed.

Lemma lookup_update_at i j f s :
  doc (update j f s) !! i = if decide (j = i) then f <$> doc s !! i else doc s !! i.
Proof.
  rewrite doc_update. case_decide as H; [subst; apply list_lookup_alter_eq|].
  by apply list_lookup_alter_ne.
Qed.

Lemma holdsAt_update i j f P s :
  (∀ e, P e → P (f e)) → holdsAt i P s → holdsAt i P (update j f s).
Proof.
  intros Hf H e. rewrite lookup_update_at. case_decide; [|apply H].
  destruct (doc s !! i) as [e0|] eqn:E; simpl; [|done]. intros [= <-]. by apply Hf, H.
Qed.

Lemma holdsAt_set i f P s :
  (∀ e, P (f e)) → holdsAt i P (update i f s).
Proof.
  intros Hf e. rewrite lookup_update_at, decide_True by done.
  destruct (doc s !! i) as [e0|]; simpl; [|done]. intros [= <-]. apply Hf.
Qed.

Lemma is_Some_update i j f s : is_Some (doc (update j f s) !! i) ↔ is_Some (doc s !! i).
Proof.
  rewrite lookup_update_at. case_decide; [|done]. by rewrite fmap_is_Some.
Qed.

Lemma holdsAt_attr_all i j l P s :
  (∀ a e, P e → P (set_attributes (add_name a (attributes e)) e)) →
  holdsAt i P s → holdsAt i P (foldl (λ s a, attr a j s) s l).
Proof.
  intros Hf. revert s. induction l as [|a l IH]; intros s H; simpl; [done|].
  apply IH. apply holdsAt_update; [apply Hf | done].
Qed.

Lemma is_Some_attr_all i j l s :
  is_Some (doc (foldl (λ s a, attr a j s) s l) !! i) ↔ is_Some (doc s !! i).
Proof.
  revert s. induction l as [|a l IH]; intros s; simpl; [done|].
  rewrite IH. apply is_Some_update.
Qed.

Lemma add_name_elem a b l : a ∈ l → a ∈ add_name b l.
Proof. intros H. unfold add_name. case_decide; [done|]. apply elem_of_app. by left. Qed.

Lemma add_name_self a l : a ∈ add_name a l.
Proof. unfold add_name. case_decide; [done|]. apply elem_of_app. right. by left. Qed.

Lemma attr_all_adds i l s a :
  a ∈ l → holdsAt i (λ e, a ∈ attributes e) (foldl (λ s a, attr a i s) s l).
Proof.
  revert s. induction l as [|b l IH]; intros s Hin; [by apply elem_of_nil in Hin|].
  simpl. apply elem_of_cons in Hin as [->|Hin]; [|by apply IH].
  apply holdsAt_attr_all.
  - intros a' e He. destruct e; simpl in *. by apply add_name_elem.
  - apply holdsAt_set. intros e. destruct e; simpl. apply add_name_self.
Qed.

Lemma timers_attr_all j l s : timers (foldl (λ s a, attr a j s) s l) = timers s.
Proof.
  revert s. induction l as [|a l IH]; intros s; simpl; [done|].
  rewrite IH. apply timers_update.
Qed.

Lemma overlay_attr_all j l s : overlay (foldl (λ s a, attr a j s) s l) = overlay s.
Proof.
  revert s. induction l as [|a l IH]; intros s; simpl; [done|].
  rewrite IH. apply overlay_update.
Qed.

Lemma css_px_twice v old : css_px v (css_px v old) = css_px v old.
Proof. by destruct v as [[]|]. Qed.

Lemma place_twice l t e :
  place l t (set_active true (place l t e)) = set_active true (place l t e).
Proof.
  unfold place. destruct e; simpl. by rewrite !css_px_twice.
Qed.

(** The state in which the callback of [show] runs. *)
Lemma Dialog_show_run self p s :
  timers s = [] →
  ∃ s2, runTimers (Dialog_show self (Some p) s) = Dialog_show_timer self p s2 ∧
        timers s2 = [] ∧
        (∀ e, doc s !! self = Some e → doc s2 !! self = Some (set_params (Some p) e)) ∧
        (bypassOverlay p = false → is_Some (overlay s2)).
Proof.
  intros Htimers. unfold Dialog_show. cbv zeta. simpl.
  set (s1 := update self (set_params (Some p)) s).
  assert (Ht1 : timers s1 = []) by (subst s1; by rewrite timers_update).
  assert (He1 : ∀ e, doc s !! self = Some e → doc s1 !! self = Some (set_params (Some p) e)).
  { intros e He. by apply lookup_update. }
  assert (Hrun : ∀ s2, timers s2 = [] →
            runTimers (set_timers (timers s2 ++ [DialogShowTimer self p]) s2) =
            Dialog_show_timer self p s2).
  { intros s2 Ht2. unfold runTimers. rewrite timers_set_timers, Ht2. simpl.
    by rewrite (set_timers_nil s2 _ Ht2). }
  destruct (overlay s1) as [o|] eqn:Ho.
  - exists s1. rewrite Hrun by done. repeat split; done.
  - destruct (bypassOverlay p) eqn:Hb.
    + exists s1. rewrite Hrun by done. repeat split; done.
    + eexists. rewrite Hrun.
      * split; [reflexivity|]. split; [by destruct s1|]. split.
        -- intros e He. apply He1 in He.
           assert (Hdoc : ∀ v x, doc (set_overlay x (set_doc v s1)) = v) by (by destruct s1).
           rewrite Hdoc. by apply lookup_app_l_Some.
        -- intros _. by destruct s1.
      * by destruct s1.
Qed.

Lemma Dialog_show_settles self p s :
  self < length (doc s) → timers s = [] →
  settled self p (runTimers (Dialog_show self (Some p) s)).
Proof.
  intros Hlt Htimers.
  destruct (lookup_lt_is_Some_2 (doc s) self Hlt) as [e0 He0].
  destruct (Dialog_show_run self p s Htimers) as (s2 & -> & Ht2 & He2 & Ho2).
  specialize (He2 e0 He0).
  unfold Dialog_show_timer.
  set (t1 := match overlay s2 with
             | Some o => if bypassOverlay p then s2 else attr "cq-active" o s2
             | None => s2
             end).
  set (t2 := update self (λ e, set_activeAttributes
                                 (add_name "cq-active" (activeAttributes e)) e) t1).
  set (L := from_option activeAttributes [] (doc t2 !! self)).
  set (t3 := foldl (λ s a, attr a self s) t2 L).
  (* the frame of the first three steps *)
  assert (Hframe1 : timers t1 = [] ∧ overlay t1 = overlay s2 ∧
                    is_Some (doc t1 !! self) ∧
                    holdsAt self (λ e, params e = Some p) t1).
  { subst t1. destruct (overlay s2) as [o|] eqn:Ho; [destruct (bypassOverlay p)|].
    - repeat split; try done. intros e He. rewrite He2 in He. simplify_eq. by destruct e0.
    - unfold attr. rewrite timers_update, overlay_update. repeat split; try done.
      + apply is_Some_update. by rewrite He2.
      + apply holdsAt_update; [intros e He; by destruct e|].
        intros e He. rewrite He2 in He. simplify_eq. by destruct e0.
    - repeat split; try done. intros e He. rewrite He2 in He. simplify_eq. by destruct e0. }
  destruct Hframe1 as (Ht1 & Ho1 & Hs1 & Hp1).
  assert (Hframe3 : timers t3 = [] ∧ overlay t3 = overlay s2 ∧
                    is_Some (doc t3 !! self) ∧
                    holdsAt self (λ e, params e = Some p ∧
                                       "cq-active" ∈ activeAttributes e ∧
                                       ∀ a, a ∈ activeAttributes e → a ∈ attributes e) t3).
  { subst t3. rewrite timers_attr_all, overlay_attr_all. subst t2.
    rewrite timers_update, overlay_update.
    split; [done|]. split; [done|]. split.
    - apply is_Some_attr_all, is_Some_update. done.
    - intros e3 He3.
      assert (HL : holdsAt self (λ e, activeAttributes e = L)
                     (foldl (λ s a, attr a self s)
                        (update self (λ e, set_activeAttributes
                                             (add_name "cq-active" (activeAttributes e)) e) t1)
                        L)).
      { apply holdsAt_attr_all; [intros a e' He'; by destruct e'|].
        intros e' He'. subst L. by rewrite He'. }
      assert (Hpc : holdsAt self (λ e, params e = Some p ∧ "cq-active" ∈ activeAttributes e)
                      (foldl (λ s a, attr a self s)
                         (update self (λ e, set_activeAttributes
                                              (add_name "cq-active" (activeAttributes e)) e) t1)
                         L)).
      { apply holdsAt_attr_all; [intros a e' He'; by destruct e'|].
        intros e' He'. rewrite lookup_update_at, decide_True in He' by done.
        destruct (doc t1 !! self) as [e1|] eqn:E1; simpl in He'; [|done].
        injection He' as <-. split.
        - specialize (Hp1 e1 E1). by destruct e1.
        - destruct e1; simpl. apply add_name_self. }
      destruct (Hpc e3 He3) as [Hp Hcq]. split; [done|]. split; [done|].
      intros a Ha. rewrite (HL e3 He3) in Ha.
      exact (attr_all_adds self L _ a Ha e3 He3). }
  destruct Hframe3 as (Ht3 & Ho3 & [e3 He3] & Hfacts3).
  destruct (Hfacts3 e3 He3) as (Hp3 & Hcq3 & Hsub3).
  rewrite Dialog_resize_placement.
  assert (Hscrim : bypassOverlay p = false →
            holdsAt (default 0 (overlay s2)) (λ eo, "cq-active" ∈ attributes eo) t3).
  { intros Hb. destruct (Ho2 Hb) as [o Ho]. rewrite Ho. simpl.
    subst t3 t2. apply holdsAt_attr_all.
    { intros a e He. destruct e; simpl in *. by apply add_name_elem. }
    apply holdsAt_update; [intros e He; by destruct e|].
    subst t1. rewrite Ho, Hb. apply holdsAt_set. intros e. destruct e; simpl.
    apply add_name_self. }
  destruct (placement self t3) as [[l t]|] eqn:Hpl; simpl.
  - set (R := update self (set_active true) (update self (place l t) t3)).
    assert (HeR : doc R !! self = Some (set_active true (place l t e3))).
    { subst R. by rewrite !lookup_update_at, !decide_True, He3 by done. }
    assert (HplR : placement self R = Some (l, t)).
    { rewrite <- Hpl. apply placement_sameGeometry. subst R.
      eapply sameGeometry_trans; apply sameGeometry_update; intros e; by destruct e, t. }
    split; [subst R; by rewrite !timers_update|]. split.
    + eexists. split; [exact HeR|].
      split; [by destruct e3, t|]. split; [by destruct e3, t|].
      split; [intros a Ha; destruct e3, t; simpl in *; by apply Hsub3|].
      intros l' t' Hpl'. rewrite HplR in Hpl'. injection Hpl' as <- <-.
      split; [by destruct e3, t | apply place_twice].
    + intros Hb. destruct (Ho2 Hb) as [o Ho]. exists o.
      split; [subst R; by rewrite !overlay_update, Ho3|].
      specialize (Hscrim Hb). rewrite Ho in Hscrim. simpl in Hscrim.
      subst R. apply holdsAt_update; [intros e He; by destruct e|].
      apply holdsAt_update; [intros e He; by destruct e, t | done].
  - split; [done|]. split.
    + exists e3. split; [done|]. split; [done|]. split; [done|]. split; [done|].
      intros l t Hpl'. fold t2 t3 in Hpl. congruence.
    + intros Hb. destruct (Ho2 Hb) as [o Ho]. exists o. split; [congruence|].
      specialize (Hscrim Hb). by rewrite Ho in Hscrim.
Qed.

(** C4, as the code has it.  [show] on a menu that is already active
    returns at once.  [show] on a dialog has no such test, but once the
    queued callback has run, the same [show] with the same params again
    changes nothing: a dialog that is displayed with params [p] is left as
    it is, and one completed [show] always leaves the dialog displayed
    with its params. *)
Theorem second_show (self : nat) (s : State) :
  (∀ p, isActive (doc s) self = true → Menu_show self p s = s) ∧
  (∀ p, settled self p s → runTimers (Dialog_show self (Some p) s) = s) ∧
  (∀ op, self < length (doc s) → timers s = [] →
         settled self (default emptyParams op) (runTimers (Dialog_show self op s)) ∧
         runTimers (Dialog_show self op (runTimers (Dialog_show self op s))) =
         runTimers (Dialog_show self op s)).
Proof.
  split; [|split].
  - intros p Hact. unfold Menu_show. by rewrite Hact.
  - intros p. apply Dialog_show_settled.
  - intros op Hlt Ht.
    assert (Hop : ∀ s', Dialog_show self op s' =
                        Dialog_show self (Some (default emptyParams op)) s')
      by (intros s'; by destruct op).
    rewrite !Hop.
    pose proof (Dialog_show_settles self (default emptyParams op) s Hlt Ht) as Hsettled.
    split; [exact Hsettled | by apply Dialog_show_settled].
Qed.

Lemma second_show_witness :
  let op := Some (mkParams (Some (ofZ 80)) (Some (ofZ 70)) false) in
  let s1 := runTimers (Dialog_show 1 op dialogPage) in
  isActive (doc s1) 1 = true ∧
  runTimers (Dialog_show 1 op s1) = s1 ∧
  Menu_show 1 None dropdownPage = dropdownPage.
Proof.
  intros op s1.
  split; [reflexivity|]. split.
  - destruct (second_show 1 dialogPage) as (_ & _ & Hdialog).
    destruct (Hdialog op) as [_ Hsame]; [vm_compute; lia | reflexivity | exact Hsame].
  - destruct (second_show 1 dropdownPage) as [Hmenu _]. by apply Hmenu.
Defined.

(** C4 fails as stated: a dialog that is open at a point, opened again
    without coordinates, moves to the centre. *)
Lemma second_show_counterexample :
  let s1 := runTimers (Dialog_show 1 (Some (mkParams (Some (ofZ 80)) (Some (ofZ 70)) false))
                         dialogPage) in
  let s2 := runTimers (Dialog_show 1 None s1) in
  isActive (doc s1) 1 = true ∧
  ∃ l1 l2, doc s1 !! 1 ≫= cssLeft = Some l1 ∧ doc s2 !! 1 ≫= cssLeft = Some l2 ∧
           l1 ≠ l2.
Proof.
  split; [reflexivity|].
  eexists _, _. split; [vm_compute; reflexivity|]. split; [vm_compute; reflexivity|].
  intros H. vm_compute in H. discriminate H.
Qed.

(** ** What a completed [show] of a dialog changes *)












Lemma active_place l t e : active (place l t e) = active e.
Proof. unfold place. by destruct e. Qed.








(** The last steps of the queued callback: [resize], then [active]. *)
Lemma after_resize self s3 (P : State → Prop) :
  P s3 →
  (∀ l t, P (update self (set_active true) (update self (place l t) s3))) →
  P (match Dialog_resize self s3 with
     | Some s4 => update self (set_active true) s4
     | None => s3
     end).
Proof.
  intros H3 H4. rewrite Dialog_resize_placement.
  destruct (placement self s3) as [[l t]|]; simpl; [apply H4 | apply H3].
Qed.

(** A property that every update of an element keeps is kept by the
    queued callback. *)
Lemma Dialog_show_timer_keeps (P : State → Prop) self p s :
  (∀ f s', P s' → P (update self f s')) →
  (∀ o s', P s' → P (attr "cq-active" o s')) →
  P s → P (Dialog_show_timer self p s).
Proof.
  intros Hself Hscrim Hs. unfold Dialog_show_timer. cbv zeta.
  assert (Hattrs : ∀ l s', P s' → P (foldl (λ s a, attr a self s) s' l)).
  { intros l. induction l as [|a l IH]; intros s' Hs'; simpl; [done|].
    apply IH. by apply Hself. }
  assert (H1 : P match overlay s with
                 | Some o => if bypassOverlay p then s else attr "cq-active" o s
                 | None => s
                 end).
  { destruct (overlay s); [|done]. destruct (bypassOverlay p); [done|]. by apply Hscrim. }
  apply after_resize.
  - apply Hattrs. by apply Hself.
  - intros l t. apply Hself, Hself, Hattrs. by apply Hself.
Qed.



Lemma length_Dialog_show_timer self p s :
  length (doc (Dialog_show_timer self p s)) = length (doc s).
Proof.
  apply (Dialog_show_timer_keeps (λ x, length (doc x) = length (doc s))); [| |done].
  - intros f s' H. by rewrite doc_update, length_alter.
  - intros o s' H. unfold attr. by rewrite doc_update, length_alter.
Qed.




(** ** Reachable states *)


































(** An open that is not in cascade breaks the invariant:
    [Lookup.prototype.open] opens the menu around the lookup without
    closing anything, so a menu that stands beside an open menu ends up
    open next to it, and no overlay holds them both. *)
Lemma lookup_open_second_root :
  let s := Lookup_open 4 twoMenusPage in
  ¬ cascades twoMenusPage 3 ∧
  activeOverlay s 1 ∧ activeOverlay s 3 ∧
  ¬ ∃ r, isOverlay (doc s) r ∧ ∀ o, activeOverlay s o → o = r ∨ ancestor (doc s) r o.
Proof.
  intros s.
  assert (H1 : activeOverlay s 1) by (split; [left; reflexivity | reflexivity]).
  assert (H3 : activeOverlay s 3) by (split; [left; reflexivity | reflexivity]).
  split; [|split; [done|split; [done|]]].
  - intros [Hnone|(P & HP & _ & HPact)].
    + apply (Hnone 1). split; [left; reflexivity | reflexivity].
    + unfold ancestor in HP.
      assert (parents (doc twoMenusPage) 3 = [0]) as Hpar by reflexivity.
      rewrite Hpar in HP. apply list_elem_of_singleton in HP. subst P. discriminate HPact.
  - intros (r & Hr & Hroot).
    assert (Hp1 : parents (doc s) 1 = [0]) by reflexivity.
    assert (Hp3 : parents (doc s) 3 = [0]) by reflexivity.
    destruct (Hroot 1 H1) as [<-|Ha1].
    + destruct (Hroot 3 H3) as [Heq|Ha3]; [discriminate Heq|].
      unfold ancestor in Ha3. rewrite Hp3 in Ha3.
      apply list_elem_of_singleton in Ha3. discriminate Ha3.
    + unfold ancestor in Ha1. rewrite Hp1 in Ha1.
      apply list_elem_of_singleton in Ha1. subst r.
      unfold isOverlay, overlayTags in Hr.
      apply elem_of_cons in Hr as [Hr|Hr]; [discriminate Hr|].
      apply list_elem_of_singleton in Hr. discriminate Hr.
Qed.
